(** * lasr: a persistent message queue on a transactional key-value store

    A shallow embedding of [lasr.go] (identifiers, messages, the Ack/Nack
    once-guard, construction options and the [fifo] staging buffer) and of
    the sequencer file ([nextSequence], [nextUint64ID]). The queue's own
    file (the struct [Q], [q.ack], [q.nack], Send, Receive) is not among the
    sources; what the properties need of it is modelled from the spec, and
    every such definition says so.

    Conventions.
    - A Go [byte] is a [Z] in [0, 256); a [[]byte] is a [list Z].
    - A Go [uint64] is a [Z] in [0, 2^64); its wrap-around is written out.
    - A Go [error] is an [option error]; [None] is [nil].
    - A Go panic is the [Panic] constructor of [outcome]. *)

From Stdlib Require Import ZArith Lia String.

From stdpp Require Import base option list sorting gmap.

Local Open Scope Z_scope.

(** ** Errors *)

(** The package-level sentinels of [lasr.go], the error built by
    [WithMessageBufferSize], and the errors of the key-value store, which
    the queue passes on unchanged. *)
Inductive error : Type :=
| emptyQ
| ErrAckNack
| ErrQClosed
| ErrInvalidBufSize (size : Z)
| ErrStore (code : nat).

#[global] Instance error_eq_dec : EqDecision error.
Proof. solve_decision. Defined.

(** A computation that may panic. *)
Inductive outcome (A : Type) : Type :=
| Ok (a : A)
| Panic (msg : string).

Arguments Ok {A} a.

Arguments Panic {A} msg.

(** ** Bytes *)

Abbreviation bytes := (list Z).

(** The conversion [byte(v)]: the low eight bits. *)
Definition byte_of (v : Z) : Z := Z.land v 255.

Definition is_byte (b : Z) : Prop := 0 <= b < 256.

Definition is_uint64 (v : Z) : Prop := 0 <= v < 2 ^ 64.

(** [bytes.Compare]: the order in which the store keeps its keys. *)
Fixpoint bytes_compare (a b : bytes) : comparison :=
  match a, b with
  | [], [] => Eq
  | [], _ :: _ => Lt
  | _ :: _, [] => Gt
  | x :: a', y :: b' =>
      match x ?= y with
      | Eq => bytes_compare a' b'
      | c => c
      end
  end.

Definition bytes_lt (a b : bytes) : Prop := bytes_compare a b = Lt.


#[global] Instance bytes_lt_dec a b : Decision (bytes_lt a b).
Proof. unfold bytes_lt. solve_decision. Defined.

(** [binary.BigEndian.PutUint64]. *)
Definition PutUint64 (v : Z) : bytes :=
  [ byte_of (Z.shiftr v 56); byte_of (Z.shiftr v 48);
    byte_of (Z.shiftr v 40); byte_of (Z.shiftr v 32);
    byte_of (Z.shiftr v 24); byte_of (Z.shiftr v 16);
    byte_of (Z.shiftr v 8);  byte_of v ].

(** [binary.Write(buf, binary.BigEndian, id)] for a value whose kind is
    [uint64]: the eight bytes are appended to the buffer; writing to a
    [bytes.Buffer] does not fail. *)
Definition binary_Write_BigEndian (buf : bytes) (v : Z) : bytes * option error :=
  (buf ++ PutUint64 v, None).

(** [bytes.NewBuffer(make([]byte, n))]: the buffer starts with [n] zero
    bytes as its contents. *)
Definition make_bytes (n : nat) : bytes := repeat 0 n.

(** ** Identifiers *)

(** [func (id Uint64ID) MarshalBinary() ([]byte, error)] *)
Definition Uint64ID_MarshalBinary (id : Z) : bytes * option error :=
  let buf := make_bytes 8 in
  let '(buf, err) := binary_Write_BigEndian buf id in
  (buf, err).

(** Reading a big-endian byte string back as a number, and the big-endian
    bytes of a number, most significant first. *)
Definition be_decode (l : bytes) : Z := fold_left (fun acc b => acc * 256 + b) l 0.

Fixpoint be_bytes (n : nat) (v : Z) : bytes :=
  match n with
  | O => []
  | S k => byte_of (Z.shiftr v (8 * Z.of_nat k)) :: be_bytes k v
  end.

(** ** Messages *)

(** [type Message struct]. The back-reference [q] is the one queue of the
    model; the field [err] is never read or written by the code and is left
    out. [once] is the [int32] on which Ack and Nack do their
    compare-and-swap. *)
Record Message : Type := mkMessage {
  Body : bytes;
  ID : bytes;
  once : Z
}.

#[global] Instance Message_eq_dec : EqDecision Message.
Proof. solve_decision. Defined.

(** A [*Message]: [None] is the nil pointer. *)
Abbreviation MessageRef := (option Message).

(** ** Slices of message references *)

#[global] Instance outcome_ret : MRet outcome := fun _ a => Ok a.

#[global] Instance outcome_bind : MBind outcome := fun _ _ f m =>
  match m with
  | Ok a => f a
  | Panic msg => Panic msg
  end.

Section Slices.

Local Open Scope nat_scope.

(** What the runtime chooses as the new capacity when [append] has to grow
    a slice of capacity [old] to hold [needed] elements. The language leaves
    it to the implementation. *)
Variable growslice : nat -> nat -> nat.

(** A slice [[]*Message] is a window on a backing array: [arr] is the array
    from the slice's first element to the array's end (so its length is the
    capacity) and [len] is the number of elements of the slice. *)
Record slice : Type := mkSlice {
  arr : list MessageRef;
  len : nat
}.

Definition cap (s : slice) : nat := length (arr s).

(** The elements of the slice, first to last. *)
Definition elems (s : slice) : list MessageRef := take (len s) (arr s).

(** [make([]*Message, 0, size)] *)
Definition make_slice (size : Z) : outcome slice :=
  if (size <? 0)%Z then Panic "makeslice: cap out of range"
  else Ok (mkSlice (repeat None (Z.to_nat size)) 0).

(** [s[i]] *)
Definition slice_index (s : slice) (i : nat) : outcome MessageRef :=
  if i <? len s then
    match arr s !! i with
    | Some x => Ok x
    | None => Panic "index out of range"
    end
  else Panic "index out of range".

(** [s[0:0]]: same array, no elements. *)
Definition slice_empty_prefix (s : slice) : slice := mkSlice (arr s) 0.

(** [s[i:]] *)
Definition slice_from (s : slice) (i : nat) : outcome slice :=
  if i <=? len s then Ok (mkSlice (drop i (arr s)) (len s - i))
  else Panic "slice bounds out of range".

(** [append(dst, xs...)]: within capacity the elements are written into the
    backing array after the slice's last element and the rest of the array
    keeps what it held; beyond capacity a new array is allocated. The
    elements [xs] are read before anything is written (the copy is a
    memmove), so [xs] may come from the same array. *)
Definition go_append (dst : slice) (xs : list MessageRef) : slice :=
  let n := len dst + length xs in
  if n <=? cap dst then
    mkSlice (take (len dst) (arr dst) ++ xs ++ drop n (arr dst)) n
  else
    mkSlice (take (len dst) (arr dst) ++ xs
             ++ repeat None (growslice (cap dst) n - n)) n.

(** ** The staging buffer *)

(** [type fifo struct]. The embedded mutex is held by the caller around
    every call; the model is of the calls one after another. *)
Record fifo : Type := mkFifo {
  data : slice
}.

(** [func newFifo(size int) *fifo] *)
Definition newFifo (size : Z) : outcome fifo :=
  s ← make_slice size; mret (mkFifo s).

(** [func (f *fifo) Pop() *Message] *)
Definition fifo_Pop (f : fifo) : outcome (MessageRef * fifo) :=
  msg ← slice_index (data f) 0;
  rest ← slice_from (data f) 1;
  mret (msg, mkFifo (go_append (slice_empty_prefix (data f)) (elems rest))).

(** [func (f *fifo) Push(m *Message)] *)
Definition fifo_Push (f : fifo) (m : MessageRef) : outcome fifo :=
  if len (data f) =? cap (data f) then Panic "push to full buffer"
  else Ok (mkFifo (go_append (data f) [m])).

(** [func (f *fifo) Len() int] *)
Definition fifo_Len (f : fifo) : nat := len (data f).

(** The messages held, oldest first. *)
Definition fifo_contents (f : fifo) : list MessageRef := elems (data f).

(** A buffer in a state the code can produce: no more elements than the
    backing array has room for. *)
Definition fifo_wf (f : fifo) : Prop := len (data f) <= cap (data f).

(** Sequences of buffer operations. *)
Inductive fifo_op : Type :=
| OpPush (m : MessageRef)
| OpPop.

(** Runs the operations in order; the result is the buffer at the end and
    the values the Pops returned, in the order they returned them. *)
Fixpoint fifo_run (ops : list fifo_op) (f : fifo) : outcome (fifo * list MessageRef) :=
  match ops with
  | [] => mret (f, [])
  | OpPush m :: ops' =>
      f' ← fifo_Push f m; fifo_run ops' f'
  | OpPop :: ops' =>
      '(x, f') ← fifo_Pop f;
      '(f'', out) ← fifo_run ops' f';
      mret (f'', x :: out)
  end.

(** The values pushed by a sequence of operations, in order. *)
Fixpoint pushed (ops : list fifo_op) : list MessageRef :=
  match ops with
  | [] => []
  | OpPush m :: ops' => m :: pushed ops'
  | OpPop :: ops' => pushed ops'
  end.

End Slices.

(** ** The Ack/Nack once-guard *)

(** [atomic.CompareAndSwapInt32(addr, old, new)]: the value at [addr]
    afterwards, and whether the swap happened. One indivisible step. *)
Definition CompareAndSwapInt32 (v old new : Z) : Z * bool :=
  if decide (v = old) then (new, true) else (v, false).

Definition set_once (v : Z) (m : Message) : Message :=
  mkMessage (Body m) (ID m) v.

(** A call on a message. *)
Inductive call : Type :=
| CallAck
| CallNack (retry : bool).

(** Where a call stands: before its compare-and-swap, past a successful
    swap and about to enter [q.ack] or [q.nack], or returned. [stored]
    records whether the call went through [q.ack] or [q.nack]. *)
Inductive pc : Type :=
| Start (c : call)
| InStore (c : call)
| Done (stored : bool) (e : option error).

Definition reached_store (p : pc) : bool :=
  match p with
  | Start _ => false
  | InStore _ => true
  | Done stored _ => stored
  end.

Section OnceGuard.

(** The queue a message points back to, with its store, in any state
    ([QS]), and what the store answers to one transaction ([F]). The guard
    is independent of both and of what [q.ack] and [q.nack] do. *)
Context {QS F : Type}.

Variable q_ack : F -> bytes -> QS -> QS * option error.

Variable q_nack : F -> bytes -> bool -> QS -> QS * option error.

(** [func (m *Message) Ack() (err error)] *)
Definition Message_Ack (o : F) (m : Message) (q : QS) : Message * QS * option error :=
  let '(v, swapped) := CompareAndSwapInt32 (once m) 0 1 in
  let m := set_once v m in
  if negb swapped then (m, q, Some ErrAckNack)
  else let '(q, err) := q_ack o (ID m) q in (m, q, err).

(** [func (m *Message) Nack(retry bool) (err error)] *)
Definition Message_Nack (o : F) (retry : bool) (m : Message) (q : QS)
  : Message * QS * option error :=
  let '(v, swapped) := CompareAndSwapInt32 (once m) 0 1 in
  let m := set_once v m in
  if negb swapped then (m, q, Some ErrAckNack)
  else let '(q, err) := q_nack o (ID m) retry q in (m, q, err).

Definition do_call (c : call) (o : F) (m : Message) (q : QS)
  : Message * QS * option error :=
  match c with
  | CallAck => Message_Ack o m q
  | CallNack retry => Message_Nack o retry m q
  end.

(** The storage half of a call. *)
Definition store_call (c : call) (o : F) (id : bytes) (q : QS) : QS * option error :=
  match c with
  | CallAck => q_ack o id q
  | CallNack retry => q_nack o id retry q
  end.

(** Calls on one message, one after the other; the errors they return, in
    order. *)
Fixpoint run_calls (cs : list (call * F)) (m : Message) (q : QS)
  : Message * QS * list (option error) :=
  match cs with
  | [] => (m, q, [])
  | (c, o) :: cs' =>
      let '(m1, q1, e) := do_call c o m q in
      let '(m2, q2, es) := run_calls cs' m1 q1 in
      (m2, q2, e :: es)
  end.

(** *** Calls running at the same time

    Each call is two indivisible steps: the compare-and-swap, and, if it
    swapped, the call of [q.ack] or [q.nack] (the store runs one writing
    transaction at a time). Any number of calls on the same message run
    interleaved in any order. *)
Record conc : Type := mkConc {
  c_msg : Message;
  c_q : QS;
  c_threads : list pc
}.

(** Thread [i] takes its next step; [o] is the store's answer should the
    step be the transaction. A thread that has returned, or that does not
    exist, takes no step. *)
Definition step (i : nat) (o : F) (s : conc) : conc :=
  match c_threads s !! i with
  | Some (Start c) =>
      let '(v, swapped) := CompareAndSwapInt32 (once (c_msg s)) 0 1 in
      let m := set_once v (c_msg s) in
      if negb swapped
      then mkConc m (c_q s) (<[i := Done false (Some ErrAckNack)]> (c_threads s))
      else mkConc m (c_q s) (<[i := InStore c]> (c_threads s))
  | Some (InStore c) =>
      let '(q, err) := store_call c o (ID (c_msg s)) (c_q s) in
      mkConc (c_msg s) q (<[i := Done true err]> (c_threads s))
  | _ => s
  end.

Definition exec (sched : list (nat * F)) (s : conc) : conc :=
  fold_left (fun s io => step io.1 io.2 s) sched s.

(** All calls not yet started. *)
Definition conc_init (m : Message) (q : QS) (cs : list call) : conc :=
  mkConc m q (Start <$> cs).

(** What every reachable state satisfies. *)
Definition guard_inv (s : conc) : Prop :=
  (forall i p, c_threads s !! i = Some p -> reached_store p = true ->
               once (c_msg s) = 1)
  /\ (forall i j p p', c_threads s !! i = Some p -> c_threads s !! j = Some p' ->
        reached_store p = true -> reached_store p' = true -> i = j)
  /\ (forall i e, c_threads s !! i = Some (Done false e) -> e = Some ErrAckNack).

End OnceGuard.

(** ** The store *)

(** A bucket of the key-value store: keys and values are byte strings, and
    a cursor walks the keys in the order of [bytes_compare]. *)
Abbreviation bucket := (gmap bytes bytes).

(** Modelled from the spec: the persisted layout of one named queue, which
    the queue's own file (not among the sources) sets up in the store: the
    buckets of ready, unacked and returned (dead-letter) messages, keyed by
    message ID, and the sequence counter of the queue's bucket, a [uint64].
    [txs] is not persisted: it counts the transactions begun on the store,
    so that a call that leaves it alone did not touch the store. *)
Record DB : Type := mkDB {
  ready : bucket;
  unacked : bucket;
  returned : bucket;
  sequence : Z;
  txs : nat
}.

Definition set_ready (b : bucket) (d : DB) : DB :=
  mkDB b (unacked d) (returned d) (sequence d) (txs d).

Definition set_unacked (b : bucket) (d : DB) : DB :=
  mkDB (ready d) b (returned d) (sequence d) (txs d).

Definition set_returned (b : bucket) (d : DB) : DB :=
  mkDB (ready d) (unacked d) b (sequence d) (txs d).

Definition set_sequence (s : Z) (d : DB) : DB :=
  mkDB (ready d) (unacked d) (returned d) s (txs d).

(** Beginning a transaction. A transaction that fails, in its function or
    at commit, is rolled back: the store is then as it was when the
    transaction began. *)
Definition db_begin (d : DB) : DB :=
  mkDB (ready d) (unacked d) (returned d) (sequence d) (S (txs d)).

(** The entry with the least key among [l], if any. *)
Definition min_entry (l : list (bytes * bytes)) : option (bytes * bytes) :=
  foldr (fun e acc =>
           match acc with
           | None => Some e
           | Some e' =>
               match bytes_compare e.1 e'.1 with
               | Lt => Some e
               | _ => Some e'
               end
           end) None l.

(** [bucket.Cursor().First()]: the entry with the lowest key. *)
Definition bucket_first (b : bucket) : option (bytes * bytes) :=
  min_entry (map_to_list b).

(** [bucket.NextSequence()] of the store: the counter is incremented, as a
    [uint64], and returned. [o] is the error the store answers with, if it
    does. *)
Definition Bucket_NextSequence (o : option error) (tx : DB) : DB * Z * option error :=
  match o with
  | Some e => (tx, 0, Some e)
  | None =>
      let s := (sequence tx + 1) mod 2 ^ 64 in
      (set_sequence s tx, s, None)
  end.

(** ** Sequencers *)

(** A value of the interface [ID]: a [Uint64ID], or any other type with a
    [MarshalBinary] method, given by what that method returns. *)
Inductive IDv : Type :=
| U64 (v : Z)
| OtherID (b : bytes) (err : option error).

Definition ID_MarshalBinary (id : IDv) : bytes * option error :=
  match id with
  | U64 v => Uint64ID_MarshalBinary v
  | OtherID b err => (b, err)
  end.

(** A value of the interface [Sequencer]: an object whose [n]-th call of
    [NextSequence] returns [seq_results n]; [seq_calls] is the number of
    calls made so far. *)
Record Sequencer : Type := mkSequencer {
  seq_results : nat -> IDv * option error;
  seq_calls : nat
}.

Definition Sequencer_NextSequence (s : Sequencer) : Sequencer * IDv * option error :=
  (mkSequencer (seq_results s) (S (seq_calls s)),
   (seq_results s (seq_calls s)).1, (seq_results s (seq_calls s)).2).

(** ** The queue *)

(** Modelled from the spec: the struct [Q], declared in the queue's own
    file, which is not among the sources. The fields are those the sources
    use ([name], [seq], [returnedKey], [messagesBufSize]) and those the spec
    gives the queue: the store handle, the staging buffer and the closed
    flag. *)
Record Q : Type := mkQ {
  db : DB;
  name : bytes;
  seq : option Sequencer;
  returnedKey : option bytes;
  messagesBufSize : Z;
  messages : fifo;
  closed : bool
}.

Definition set_db (d : DB) (q : Q) : Q :=
  mkQ d (name q) (seq q) (returnedKey q) (messagesBufSize q) (messages q) (closed q).

Definition set_seq (s : option Sequencer) (q : Q) : Q :=
  mkQ (db q) (name q) s (returnedKey q) (messagesBufSize q) (messages q) (closed q).

Definition set_returnedKey (k : option bytes) (q : Q) : Q :=
  mkQ (db q) (name q) (seq q) k (messagesBufSize q) (messages q) (closed q).

Definition set_messagesBufSize (n : Z) (q : Q) : Q :=
  mkQ (db q) (name q) (seq q) (returnedKey q) n (messages q) (closed q).

Definition set_messages (f : fifo) (q : Q) : Q :=
  mkQ (db q) (name q) (seq q) (returnedKey q) (messagesBufSize q) f (closed q).

(** *** Options *)

(** [type Option func(q *Q) error] *)
Definition Option : Type := Q -> Q * option error.

(** [func WithSequencer(seq Sequencer) Option] *)
Definition WithSequencer (s : Sequencer) : Option :=
  fun q => (set_seq (Some s) q, None).

(** [[]byte("deadletters")] *)
Definition deadletters : bytes :=
  [100; 101; 97; 100; 108; 101; 116; 116; 101; 114; 115].

(** [func WithDeadLetters() Option] *)
Definition WithDeadLetters : Option :=
  fun q => (set_returnedKey (Some deadletters) q, None).

(** [func WithMessageBufferSize(size int) Option] *)
Definition WithMessageBufferSize (size : Z) : Option :=
  fun q =>
    if size <? 0 then (q, Some (ErrInvalidBufSize size))
    else (set_messagesBufSize size q, None).

(** Modelled from the spec: the queue as the constructor has it before it
    applies the options, every field an option can set at Go's zero value:
    no custom sequencer, no dead letters, buffer size 0. The constructor
    itself is in the queue's own file, which is not among the sources. *)
Definition Q_zero (d : DB) (nm : bytes) : Q :=
  mkQ d nm None None 0 (mkFifo (mkSlice [] 0)) false.

(** *** The sequencer file *)

(** [func (q *Q) nextUint64ID(tx *bolt.Tx) (Uint64ID, error)]. The bucket
    [q.name] is the one whose counter is [sequence]. *)
Definition Q_nextUint64ID (o : option error) (tx : DB) : DB * Z * option error :=
  let '(tx, s, err) := Bucket_NextSequence o tx in
  match err with
  | Some e => (tx, 0, Some e)
  | None => (tx, s, None)
  end.

(** [func (q *Q) nextSequence(tx *bolt.Tx) (ID, error)]. A call changes the
    store (the counter) or the sequencer object, so both are returned. *)
Definition Q_nextSequence (o : option error) (q : Q) (tx : DB)
  : Q * DB * IDv * option error :=
  match seq q with
  | Some s =>
      let '(s', id, err) := Sequencer_NextSequence s in
      (set_seq (Some s') q, tx, id, err)
  | None =>
      let '(tx', v, err) := Q_nextUint64ID o tx in
      (q, tx', U64 v, err)
  end.

(** *** The engine

    The queue's own file is not among the sources; its operations are
    modelled from the spec. Each takes the error with which the store fails
    the operation's transaction, if it does ([None]: the store commits). *)

(** Modelled from the spec: [q.ack(id)], a single short transaction that
    deletes the entry keyed by [id] from Unacked (sections 4.2 and 4.4); any
    operation on a closed queue returns queue-closed and moves nothing
    (sections 7 and 8). *)
Definition Q_ack (o : option error) (id : bytes) (q : Q) : Q * option error :=
  if closed q then (q, Some ErrQClosed)
  else
    let tx := db_begin (db q) in
    let tx' := set_unacked (delete id (unacked tx)) tx in
    match o with
    | Some e => (set_db tx q, Some e)
    | None => (set_db tx' q, None)
    end.

(** Modelled from the spec: [q.nack(id, retry)], a single transaction that
    deletes the entry from Unacked and then either reinserts it into Ready
    at the same key ([retry]), or inserts it into Returned at the same key
    (no retry, dead letters enabled), or drops it (section 4.2). *)
Definition Q_nack (o : option error) (id : bytes) (retry : bool) (q : Q)
  : Q * option error :=
  if closed q then (q, Some ErrQClosed)
  else
    let tx := db_begin (db q) in
    let val := default [] (unacked tx !! id) in
    let tx1 := set_unacked (delete id (unacked tx)) tx in
    let tx2 :=
      if retry then set_ready (<[id := val]> (ready tx1)) tx1
      else match returnedKey q with
           | Some _ => set_returned (<[id := val]> (returned tx1)) tx1
           | None => tx1
           end in
    match o with
    | Some e => (set_db tx q, Some e)
    | None => (set_db tx2 q, None)
    end.

(** Modelled from the spec: [Send(body)] opens a write transaction, obtains
    the next ID from the sequencer, writes [body] at that key in Ready,
    commits, and returns a message with this ID; a failure of the sequencer
    or of the transaction aborts with no change of the store (section 4.4).
    [oseq] is the store's answer to [NextSequence], [ocommit] to the
    commit. *)
Definition Q_Send (oseq ocommit : option error) (body : bytes) (q : Q)
  : Q * MessageRef * option error :=
  if closed q then (q, None, Some ErrQClosed)
  else
    let tx := db_begin (db q) in
    let '(q1, tx1, id, err) := Q_nextSequence oseq q tx in
    match err with
    | Some e => (set_db tx q1, None, Some e)
    | None =>
        let '(key, err) := ID_MarshalBinary id in
        match err with
        | Some e => (set_db tx q1, None, Some e)
        | None =>
            let tx2 := set_ready (<[key := body]> (ready tx1)) tx1 in
            match ocommit with
            | Some e => (set_db tx q1, None, Some e)
            | None => (set_db tx2 q1, Some (mkMessage body key 0), None)
            end
        end
    end.

(** Sends one after the other; the IDs of the messages returned by those
    that succeeded, in order. *)
Fixpoint run_sends (sends : list (option error * option error * bytes)) (q : Q)
  : Q * list bytes :=
  match sends with
  | [] => (q, [])
  | (oseq, ocommit, body) :: rest =>
      let '(q1, m, _) := Q_Send oseq ocommit body q in
      let '(q2, ids) := run_sends rest q1 in
      (q2, match m with Some m => ID m :: ids | None => ids end)
  end.

(** Moving the entry [k], [v] from Ready to Unacked. *)
Definition move_to_unacked (k v : bytes) (tx : DB) : DB :=
  set_unacked (<[k := v]> (unacked tx)) (set_ready (delete k (ready tx)) tx).

Section Engine.

Variable growslice : nat -> nat -> nat.

(** Modelled from the spec: staging, inside one transaction: up to [n] of
    the lowest-key entries of Ready are moved to Unacked, in key order, and a
    message for each is pushed into the staging buffer in the same order
    (section 4.4). *)
Fixpoint stage (n : nat) (tx : DB) (f : fifo) : outcome (DB * fifo) :=
  match n with
  | O => mret (tx, f)
  | S n' =>
      match bucket_first (ready tx) with
      | None => mret (tx, f)
      | Some (k, v) =>
          f' ← fifo_Push growslice f (Some (mkMessage v k 0));
          stage n' (move_to_unacked k v tx) f'
      end
  end.

(** Modelled from the spec: [Receive], non-blocking (section 4.4).
    - The buffer has entries: the next one is popped, with no transaction.
    - The buffer is disabled (capacity 0): one transaction moves the
      lowest-key entry of Ready to Unacked and the message is returned.
    - The buffer is enabled and empty: one transaction stages up to
      capacity entries; then the first is popped and returned.
    - Nothing is ready: the empty-queue signal.
    A transaction that fails is rolled back and its error returned. *)
Definition Q_Receive (o : option error) (q : Q)
  : outcome (Q * MessageRef * option error) :=
  if closed q then mret (q, None, Some ErrQClosed)
  else if (0 <? fifo_Len (messages q))%nat then
    '(m, f) ← fifo_Pop growslice (messages q);
    mret (set_messages f q, m, None)
  else
    let tx := db_begin (db q) in
    if messagesBufSize q =? 0 then
      match bucket_first (ready tx) with
      | None => mret (set_db tx q, None, Some emptyQ)
      | Some (k, v) =>
          match o with
          | Some e => mret (set_db tx q, None, Some e)
          | None =>
              mret (set_db (move_to_unacked k v tx) q,
                    Some (mkMessage v k 0), None)
          end
      end
    else
      '(tx', f) ← stage (Z.to_nat (messagesBufSize q)) tx (messages q);
      if (fifo_Len f =? 0)%nat then mret (set_db tx q, None, Some emptyQ)
      else
        match o with
        | Some e => mret (set_db tx q, None, Some e)
        | None =>
            '(m, f') ← fifo_Pop growslice f;
            mret (set_messages f' (set_db tx' q), m, None)
        end.

(** Receives one after the other; the messages returned, in order. *)
Fixpoint run_receives (os : list (option error)) (q : Q) : outcome (Q * list MessageRef) :=
  match os with
  | [] => mret (q, [])
  | o :: os' =>
      '(q1, m, err) ← Q_Receive o q;
      '(q2, ms) ← run_receives os' q1;
      mret (q2, match err with None => m :: ms | Some _ => ms end)
  end.

End Engine.

(** ** Values for the examples *)

(** The growth policy used when an example has to be run; no example grows
    a slice. *)
Definition grow_exact (old needed : nat) : nat := needed.

Definition ex_db : DB := mkDB ∅ ∅ ∅ 0 0.

Definition ex_q (size : Z) : Q :=
  mkQ ex_db [113] None None size (mkFifo (mkSlice (repeat None (Z.to_nat size)) 0)) false.

Definition ex_m1 : Message := mkMessage [97] [0; 1] 0.

Definition ex_m2 : Message := mkMessage [98] [0; 2] 0.

Definition ex_fifo0 : fifo := mkFifo (mkSlice [None; None] 0).

Definition ex_ops : list fifo_op := [OpPush (Some ex_m1); OpPop; OpPush (Some ex_m2)].

Definition ex_fifo1 : fifo := mkFifo (mkSlice [Some ex_m2; None] 1).

(** ** What the properties speak of *)

(** The key a result of [NextSequence] leads to, when neither the sequencer
    nor [MarshalBinary] fails. *)
Definition key_of (r : IDv * option error) : option bytes :=
  match r.2 with
  | Some _ => None
  | None =>
      match ID_MarshalBinary r.1 with
      | (k, None) => Some k
      | (_, Some _) => None
      end
  end.

(** The invariants the interface [Sequencer] asks of an implementation: the
    IDs of later calls are greater, in byte order, than those of earlier
    calls (so no ID comes twice). *)
Definition Sequencer_increasing (s : Sequencer) : Prop :=
  forall (i j : nat) ki kj,
    (i < j)%nat ->
    key_of (seq_results s i) = Some ki ->
    key_of (seq_results s j) = Some kj ->
    bytes_lt ki kj.

(** A queue whose sequencer keeps these invariants over the next [n] calls
    of Send: a custom sequencer that is increasing, or the default one with
    its counter at least [n] below the end of the [uint64] range. *)
Definition sequencer_ok (q : Q) (n : nat) : Prop :=
  match seq q with
  | Some s => Sequencer_increasing s
  | None => 0 <= sequence (db q) /\ sequence (db q) + Z.of_nat n < 2 ^ 64
  end.

(** C5, as the spec states it: on any queue, the IDs returned by the
    successful calls of any sequence of Sends are strictly increasing in
    byte order and pairwise distinct. *)
Definition Send_IDs_always_increasing : Prop :=
  forall (q : Q) (sends : list (option error * option error * bytes)),
    StronglySorted bytes_lt (run_sends sends q).2
    /\ NoDup (run_sends sends q).2.

(** A sequencer that returns the same ID at every call. *)
Definition ex_const_sequencer : Sequencer :=
  mkSequencer (fun _ => (U64 7, None)) 0.

Definition ex_sends : list (option error * option error * bytes) :=
  [(None, None, [97]); (None, Some (ErrStore 1), [98]); (None, None, [99])].





(** A run of the queue with a staging buffer of [size]: two messages are
    sent, one Receive returns the first, the first is nacked with retry,
    and one more Receive follows. *)
Definition ex_key (v : Z) : bytes := (Uint64ID_MarshalBinary v).1.

Definition ex_msg_a : Message := mkMessage [97] (ex_key 1) 0.

Definition ex_msg_b : Message := mkMessage [98] (ex_key 2) 0.

Definition ex_two_sent (size : Z) : Q :=
  (run_sends [(None, None, [97]); (None, None, [98])] (ex_q size)).1.

Definition ex_received (size : Z) : Q :=
  match Q_Receive grow_exact None (ex_two_sent size) with
  | Ok (q, _, _) => q
  | Panic _ => ex_two_sent size
  end.

Definition ex_nacked (size : Z) : Q :=
  (Message_Nack Q_nack None true ex_msg_a (ex_received size)).1.2.


(** ** What the further properties speak of *)

(** Applying a function to the result of a computation that may panic. *)
Definition outcome_map {A B : Type} (h : A -> B) (o : outcome A) : outcome B :=
  match o with
  | Ok a => Ok (h a)
  | Panic msg => Panic msg
  end.

(** A bounded queue kept as a plain list, oldest first: what a run of
    operations does to it and returns, with the panics of the buffer. *)
Fixpoint bq_run (size : nat) (ops : list fifo_op) (l : list MessageRef)
  : outcome (list MessageRef * list MessageRef) :=
  match ops with
  | [] => Ok (l, [])
  | OpPush m :: ops' =>
      if (length l =? size)%nat then Panic "push to full buffer"
      else bq_run size ops' (l ++ [m])
  | OpPop :: ops' =>
      match l with
      | [] => Panic "index out of range"
      | x :: l' =>
          outcome_map (fun r => (r.1, x :: r.2)) (bq_run size ops' l')
      end
  end.

(** A call that has returned. *)
Definition is_returned (p : pc) : bool :=
  match p with
  | Done _ _ => true
  | _ => false
  end.

(** A call that has not swapped: not yet started, or turned away. *)
Definition turned_away (c : call) (p : pc) : Prop :=
  p = Start c \/ p = Done false (Some ErrAckNack).

(** The states a run of the calls [cs] on the fresh message [m0] and the
    queue [q0] goes through: nobody has swapped and the queue is as it was;
    or one call has swapped, every other call has not, and the queue is
    as it was or as that call's transaction, run once, has left it. *)
Definition one_winner {QS F : Type}
    (q_ack : F -> bytes -> QS -> QS * option error)
    (q_nack : F -> bytes -> bool -> QS -> QS * option error)
    (m0 : Message) (q0 : QS) (cs : list call) (s : conc) : Prop :=
  ID (c_msg s) = ID m0
  /\ length (c_threads s) = length cs
  /\ ((once (c_msg s) = 0 /\ c_threads s = Start <$> cs /\ c_q s = q0)
      \/ exists (i : nat) (c : call),
           cs !! i = Some c
           /\ once (c_msg s) = 1
           /\ (forall (j : nat) cj p, j <> i -> cs !! j = Some cj ->
                 c_threads s !! j = Some p -> turned_away cj p)
           /\ ((c_threads s !! i = Some (InStore c) /\ c_q s = q0)
               \/ exists o : F,
                    c_threads s !! i
                    = Some (Done true (store_call q_ack q_nack c o (ID m0) q0).2)
                    /\ c_q s = (store_call q_ack q_nack c o (ID m0) q0).1)).

(** Calls of [nextSequence] one after the other inside one transaction;
    what they return, in order. *)
Fixpoint run_nextSequence (os : list (option error)) (q : Q) (tx : DB)
  : Q * DB * list (IDv * option error) :=
  match os with
  | [] => (q, tx, [])
  | o :: os' =>
      let '(q1, tx1, id, err) := Q_nextSequence o q tx in
      let '(q2, tx2, rs) := run_nextSequence os' q1 tx1 in
      (q2, tx2, (id, err) :: rs)
  end.

(** The message [m'] is [m] with the same body and ID, and with the flag
    as it was or gone from 0 to 1. *)
Definition message_kept (m m' : Message) : Prop :=
  Body m' = Body m /\ ID m' = ID m
  /\ (once m' = once m \/ (once m = 0 /\ once m' = 1)).

(** * Facts *)

(** ** Facts on bytes *)

Lemma byte_of_mod v : byte_of v = v mod 256.
Proof. unfold byte_of. change 255 with (Z.ones 8). by rewrite Z.land_ones. Qed.

Lemma byte_of_is_byte v : is_byte (byte_of v).
Proof. rewrite byte_of_mod. unfold is_byte. apply Z.mod_pos_bound. lia. Qed.

Lemma PutUint64_be_bytes v : PutUint64 v = be_bytes 8 v.
Proof. reflexivity. Qed.

Lemma be_bytes_length n v : length (be_bytes n v) = n.
Proof. induction n; simpl; congruence. Qed.

Lemma be_bytes_Forall n v : Forall is_byte (be_bytes n v).
Proof. induction n; simpl; constructor; auto using byte_of_is_byte. Qed.

Lemma pow256_pos k : 0 < 256 ^ Z.of_nat k.
Proof. apply Z.pow_pos_nonneg; lia. Qed.

Lemma pow256_succ k : 256 ^ Z.of_nat (S k) = 256 ^ Z.of_nat k * 256.
Proof. rewrite Nat2Z.inj_succ, Z.pow_succ_r by lia. lia. Qed.

Lemma be_head_mod k v :
  byte_of (Z.shiftr v (8 * Z.of_nat k)) = (v / 256 ^ Z.of_nat k) mod 256.
Proof.
  rewrite byte_of_mod, Z.shiftr_div_pow2 by lia.
  rewrite Z.pow_mul_r by lia. reflexivity.
Qed.

Lemma mod_pow256_succ k v :
  v mod 256 ^ Z.of_nat (S k)
  = (v / 256 ^ Z.of_nat k) mod 256 * 256 ^ Z.of_nat k + v mod 256 ^ Z.of_nat k.
Proof.
  rewrite pow256_succ. pose proof (pow256_pos k).
  rewrite Z.rem_mul_r by lia. lia.
Qed.

Lemma be_bytes_compare n a b :
  bytes_compare (be_bytes n a) (be_bytes n b)
  = (a mod 256 ^ Z.of_nat n ?= b mod 256 ^ Z.of_nat n).
Proof.
  induction n as [|k IH]; simpl be_bytes; simpl bytes_compare.
  - change (256 ^ Z.of_nat 0) with 1. by rewrite !Z.mod_1_r.
  - rewrite !be_head_mod, !mod_pow256_succ, IH.
    pose proof (pow256_pos k) as Hp.
    pose proof (Z.mod_pos_bound a _ Hp) as Ha.
    pose proof (Z.mod_pos_bound b _ Hp) as Hb.
    set (qa := (a / 256 ^ Z.of_nat k) mod 256).
    set (qb := (b / 256 ^ Z.of_nat k) mod 256).
    set (ra := a mod 256 ^ Z.of_nat k) in *.
    set (rb := b mod 256 ^ Z.of_nat k) in *.
    set (p := 256 ^ Z.of_nat k) in *.
    destruct (Z.compare_spec qa qb) as [Heq|Hlt|Hgt].
    + rewrite Heq. destruct (Z.compare_spec ra rb); symmetry.
      * apply Z.compare_eq_iff. lia.
      * apply Z.compare_lt_iff. lia.
      * apply Z.compare_gt_iff. lia.
    + symmetry. apply Z.compare_lt_iff. nia.
    + symmetry. apply Z.compare_gt_iff. nia.
Qed.

Lemma be_decode_app l acc :
  fold_left (fun acc b => acc * 256 + b) l acc
  = acc * 256 ^ Z.of_nat (length l) + be_decode l.
Proof.
  unfold be_decode. revert acc.
  induction l as [|x l IH]; intros acc.
  - simpl. lia.
  - cbn [fold_left length]. rewrite IH, (IH (0 * 256 + x)), pow256_succ. lia.
Qed.

Lemma be_decode_be_bytes n v : be_decode (be_bytes n v) = v mod 256 ^ Z.of_nat n.
Proof.
  induction n as [|k IH].
  - change (256 ^ Z.of_nat 0) with 1. by rewrite Z.mod_1_r.
  - simpl be_bytes. unfold be_decode. cbn [fold_left].
    rewrite be_decode_app, be_bytes_length, IH, be_head_mod, mod_pow256_succ.
    lia.
Qed.

Lemma bytes_compare_app_same p a b :
  bytes_compare (p ++ a) (p ++ b) = bytes_compare a b.
Proof.
  induction p as [|x p IH]; simpl; [done|]. by rewrite Z.compare_refl.
Qed.

Section SlicesFacts.

Local Open Scope nat_scope.

Variable growslice : nat -> nat -> nat.

(** *** Facts on the buffer *)

Lemma newFifo_ok size :
  (0 <= size)%Z ->
  exists f, newFifo size = Ok f /\ fifo_contents f = [] /\ fifo_Len f = 0
            /\ cap (data f) = Z.to_nat size.
Proof.
  intros Hs. unfold newFifo, make_slice.
  destruct (Z.ltb_spec size 0) as [?|_]; [lia|].
  eexists. split; [reflexivity|]. cbn.
  unfold fifo_contents, elems, fifo_Len, cap. cbn.
  by rewrite repeat_length.
Qed.

Lemma newFifo_inv size f :
  newFifo size = Ok f ->
  (0 <= size)%Z /\ fifo_contents f = [] /\ fifo_Len f = 0
  /\ cap (data f) = Z.to_nat size.
Proof.
  intros H. assert (0 <= size)%Z as Hs.
  { unfold newFifo, make_slice in H.
    destruct (Z.ltb_spec size 0); [discriminate|lia]. }
  destruct (newFifo_ok size Hs) as (f' & Hf' & ?).
  rewrite H in Hf'. injection Hf' as ->. auto.
Qed.

Lemma newFifo_negative size : (size < 0)%Z -> newFifo size = Panic "makeslice: cap out of range".
Proof.
  intros Hs. unfold newFifo, make_slice.
  by destruct (Z.ltb_spec size 0) as [_|?]; [|lia].
Qed.

Lemma fifo_Push_full f m :
  fifo_Len f = cap (data f) -> fifo_Push growslice f m = Panic "push to full buffer".
Proof.
  unfold fifo_Len, fifo_Push. intros ->. by rewrite Nat.eqb_refl.
Qed.

Lemma fifo_Push_ok f m :
  fifo_wf f -> fifo_Len f < cap (data f) ->
  exists f', fifo_Push growslice f m = Ok f'
    /\ fifo_contents f' = fifo_contents f ++ [m]
    /\ fifo_Len f' = S (fifo_Len f)
    /\ cap (data f') = cap (data f).
Proof.
  unfold fifo_wf, fifo_Len, fifo_Push, fifo_contents, elems, cap.
  destruct f as [[a n]]; cbn. intros Hwf Hlt.
  destruct (Nat.eqb_spec n (length a)) as [?|_]; [lia|].
  eexists. split; [reflexivity|]. unfold go_append, cap; cbn.
  destruct (Nat.leb_spec (n + 1) (length a)) as [_|?]; [|lia]. cbn.
  split; [|split; [lia|]].
  - rewrite take_app_ge by (rewrite length_take; lia).
    rewrite length_take, Nat.min_l by lia.
    replace (n + 1 - n) with 1 by lia. reflexivity.
  - rewrite length_app, length_take. cbn. rewrite length_drop. lia.
Qed.

Lemma fifo_Pop_empty f :
  fifo_Len f = 0 -> fifo_Pop growslice f = Panic "index out of range".
Proof.
  unfold fifo_Len, fifo_Pop, slice_index. by intros ->.
Qed.

Lemma fifo_Pop_ok f :
  fifo_wf f -> 0 < fifo_Len f ->
  exists x f', fifo_Pop growslice f = Ok (x, f')
    /\ fifo_contents f = x :: fifo_contents f'
    /\ S (fifo_Len f') = fifo_Len f
    /\ cap (data f') = cap (data f).
Proof.
  unfold fifo_wf, fifo_Len, fifo_Pop, fifo_contents, elems, cap, slice_index,
    slice_from, slice_empty_prefix.
  destruct f as [[a n]]; cbn. intros Hwf Hpos.
  destruct a as [|x a]; [cbn in Hwf; lia|].
  destruct n as [|n]; [lia|]. cbn in Hwf. cbn.
  exists x. eexists. split; [reflexivity|].
  unfold go_append, cap; cbn. rewrite drop_0, Nat.sub_0_r.
  rewrite length_take, Nat.min_l by lia.
  destruct (Nat.leb_spec n (S (length a))) as [_|?]; [|lia]. cbn.
  split; [|split; [done|]].
  - f_equal. destruct n as [|n]; [done|].
    cbn. destruct a as [|y a]; [cbn in Hwf; lia|]. cbn.
    rewrite take_app_ge by (rewrite length_take; cbn in Hwf; lia).
    rewrite length_take. cbn in Hwf. rewrite Nat.min_l by lia.
    rewrite Nat.sub_diag, take_0, app_nil_r. reflexivity.
  - rewrite length_app, length_take, Nat.min_l by lia.
    destruct n as [|n]; cbn; [lia|]. rewrite length_drop. lia.
Qed.

Lemma fifo_Push_inv f m f' :
  fifo_wf f -> fifo_Push growslice f m = Ok f' ->
  fifo_Len f < cap (data f) /\ fifo_wf f'
  /\ fifo_contents f' = fifo_contents f ++ [m]
  /\ fifo_Len f' = S (fifo_Len f)
  /\ cap (data f') = cap (data f).
Proof.
  intros Hwf Hpush.
  assert (fifo_Len f < cap (data f)) as Hlt.
  { destruct (Nat.eq_dec (fifo_Len f) (cap (data f))) as [Heq|Hne].
    - rewrite (fifo_Push_full f m Heq) in Hpush. discriminate.
    - unfold fifo_wf, fifo_Len in *. lia. }
  destruct (fifo_Push_ok f m Hwf Hlt) as (f'' & Heq & Hc & Hl & Hcap).
  rewrite Hpush in Heq. injection Heq as <-.
  repeat split; try done. unfold fifo_wf, fifo_Len in *. lia.
Qed.

Lemma fifo_Pop_inv f x f' :
  fifo_wf f -> fifo_Pop growslice f = Ok (x, f') ->
  0 < fifo_Len f /\ fifo_wf f'
  /\ fifo_contents f = x :: fifo_contents f'
  /\ S (fifo_Len f') = fifo_Len f
  /\ cap (data f') = cap (data f).
Proof.
  intros Hwf Hpop.
  assert (0 < fifo_Len f) as Hpos.
  { destruct (Nat.eq_dec (fifo_Len f) 0) as [Heq|Hne]; [|lia].
    rewrite (fifo_Pop_empty f Heq) in Hpop. discriminate. }
  destruct (fifo_Pop_ok f Hwf Hpos) as (y & f'' & Heq & Hc & Hl & Hcap).
  rewrite Hpop in Heq. injection Heq as <- <-.
  repeat split; try done. unfold fifo_wf, fifo_Len in *. lia.
Qed.

(** What a run of operations keeps and what it does to the contents. *)
Lemma fifo_run_inv ops : forall f f' out,
  fifo_wf f -> fifo_run growslice ops f = Ok (f', out) ->
  fifo_wf f' /\ cap (data f') = cap (data f)
  /\ fifo_contents f ++ pushed ops = out ++ fifo_contents f'.
Proof.
  induction ops as [|[m|] ops IH]; intros f f' out Hwf Hrun; cbn in Hrun.
  - injection Hrun as <- <-. cbn. by rewrite app_nil_r.
  - destruct (fifo_Push growslice f m) as [f1|] eqn:Hpush; [|discriminate]. cbn in Hrun.
    destruct (fifo_Push_inv f m f1 Hwf Hpush) as (_ & Hwf1 & Hc & _ & Hcap).
    destruct (IH f1 f' out Hwf1 Hrun) as (Hwf' & Hcap' & Hcont).
    repeat split; [done|congruence|].
    cbn. rewrite <- Hcont, Hc, <- app_assoc. reflexivity.
  - destruct (fifo_Pop growslice f) as [[x f1]|] eqn:Hpop; [|discriminate]. cbn in Hrun.
    destruct (fifo_Pop_inv f x f1 Hwf Hpop) as (_ & Hwf1 & Hc & _ & Hcap).
    destruct (fifo_run growslice ops f1) as [[f2 out2]|] eqn:Hrun2; [|discriminate].
    cbn in Hrun. injection Hrun as <- <-.
    destruct (IH f1 f2 out2 Hwf1 Hrun2) as (Hwf' & Hcap' & Hcont).
    repeat split; [done|congruence|].
    cbn. rewrite Hc. cbn. by rewrite Hcont.
Qed.

Lemma newFifo_wf size f : newFifo size = Ok f -> fifo_wf f.
Proof.
  intros H. destruct (newFifo_inv size f H) as (_ & _ & Hl & _).
  unfold fifo_wf, fifo_Len in *. lia.
Qed.

End SlicesFacts.

Section OnceGuardFacts.

Context {QS F : Type}.

Variable q_ack : F -> bytes -> QS -> QS * option error.

Variable q_nack : F -> bytes -> bool -> QS -> QS * option error.

(** *** Facts on the guard *)

Lemma CAS_fresh : CompareAndSwapInt32 0 0 1 = (1, true).
Proof. reflexivity. Qed.

Lemma CAS_resolved v : v <> 0 -> CompareAndSwapInt32 v 0 1 = (v, false).
Proof. intros Hv. unfold CompareAndSwapInt32. by destruct (decide (v = 0)). Qed.

Lemma set_once_same m : set_once (once m) m = m.
Proof. by destruct m. Qed.

Lemma do_call_resolved c o m q :
  once m <> 0 -> do_call q_ack q_nack c o m q = (m, q, Some ErrAckNack).
Proof.
  intros Hm. destruct c; cbn; unfold Message_Ack, Message_Nack;
    rewrite (CAS_resolved _ Hm); cbn; by rewrite set_once_same.
Qed.

Lemma do_call_fresh c o m q :
  once m = 0 ->
  do_call q_ack q_nack c o m q
  = (set_once 1 m, (store_call q_ack q_nack c o (ID m) q).1, (store_call q_ack q_nack c o (ID m) q).2).
Proof.
  intros Hm. destruct c; cbn; unfold Message_Ack, Message_Nack;
    rewrite Hm, CAS_fresh; cbn.
  - by destruct (q_ack o (ID m) q).
  - by destruct (q_nack o (ID m) retry q).
Qed.

Lemma do_call_once c o m q : once (do_call q_ack q_nack c o m q).1.1 <> 0.
Proof.
  destruct (decide (once m = 0)) as [H0|Hn].
  - by rewrite (do_call_fresh _ _ _ _ H0).
  - by rewrite (do_call_resolved _ _ _ _ Hn).
Qed.

Lemma run_calls_resolved cs : forall m q,
  once m <> 0 ->
  run_calls q_ack q_nack cs m q = (m, q, repeat (Some ErrAckNack) (length cs)).
Proof.
  induction cs as [|[c o] cs IH]; intros m q Hm; cbn; [done|].
  rewrite (do_call_resolved _ _ _ _ Hm), (IH _ _ Hm). reflexivity.
Qed.

Lemma run_calls_cons c o cs m q :
  run_calls q_ack q_nack ((c, o) :: cs) m q
  = ((do_call q_ack q_nack c o m q).1.1, (do_call q_ack q_nack c o m q).1.2,
     (do_call q_ack q_nack c o m q).2 :: repeat (Some ErrAckNack) (length cs)).
Proof.
  cbn. pose proof (do_call_once c o m q) as Hn.
  destruct (do_call q_ack q_nack c o m q) as [[m1 q1] e]. cbn in *.
  by rewrite (run_calls_resolved _ _ _ Hn).
Qed.

Lemma guard_inv_init m (q : QS) cs : guard_inv (conc_init m q cs).
Proof.
  unfold guard_inv, conc_init; cbn. repeat split.
  - intros i p Hp Hr. apply list_lookup_fmap_Some in Hp as (c & -> & _). done.
  - intros i j p p' Hp _ Hr. apply list_lookup_fmap_Some in Hp as (c & -> & _). done.
  - intros i e He. apply list_lookup_fmap_Some in He as (c & ? & _). done.
Qed.

Lemma lookup_insert_cases (l : list pc) i j x p :
  <[i := x]> l !! j = Some p ->
  (i = j /\ p = x) \/ (i <> j /\ l !! j = Some p).
Proof.
  intros H. destruct (decide (i = j)) as [->|Hne].
  - left. split; [done|].
    assert (j < length l)%nat as Hlt.
    { apply lookup_lt_Some in H. by rewrite length_insert in H. }
    rewrite list_lookup_insert_eq in H by done. congruence.
  - right. by rewrite list_lookup_insert_ne in H.
Qed.

Lemma guard_inv_step i o s : guard_inv s -> guard_inv (step q_ack q_nack i o s).
Proof.
  intros (Honce & Huniq & Hret). unfold step.
  destruct (c_threads s !! i) as [[c|c|b e]|] eqn:Hi; try done.
  - (* the compare-and-swap *)
    unfold CompareAndSwapInt32.
    destruct (decide (once (c_msg s) = 0)) as [H0|Hn]; cbn.
    + assert (forall j p, c_threads s !! j = Some p -> reached_store p = false)
        as Hnone.
      { intros j p Hj. destruct (reached_store p) eqn:Hr; [|done].
        specialize (Honce j p Hj Hr). congruence. }
      (split; [|split]); cbn.
      * intros; reflexivity.
      * intros j k p p' Hj Hk Hrj Hrk.
        apply lookup_insert_cases in Hj as [[-> ->]|[? Hj]];
          apply lookup_insert_cases in Hk as [[-> ->]|[? Hk]]; try done.
        -- rewrite (Hnone _ _ Hk) in Hrk. done.
        -- rewrite (Hnone _ _ Hj) in Hrj. done.
        -- rewrite (Hnone _ _ Hj) in Hrj. done.
      * intros j e Hj.
        apply lookup_insert_cases in Hj as [[_ ?]|[_ Hj]]; [done|eauto].
    + (split; [|split]); cbn.
      * intros j p Hj Hr.
        apply lookup_insert_cases in Hj as [[_ ->]|[_ Hj]]; [done|eauto].
      * intros j k p p' Hj Hk Hrj Hrk.
        apply lookup_insert_cases in Hj as [[_ ->]|[_ Hj]]; [done|].
        apply lookup_insert_cases in Hk as [[_ ->]|[_ Hk]]; [done|eauto].
      * intros j e Hj.
        apply lookup_insert_cases in Hj as [[_ ?]|[_ Hj]]; [congruence|eauto].
  - (* the transaction *)
    destruct (store_call q_ack q_nack c o (ID (c_msg s)) (c_q s)) as [q' err]. cbn.
    (split; [|split]); cbn.
    + intros j p Hj Hr.
      apply lookup_insert_cases in Hj as [[<- ->]|[_ Hj]]; [|eauto].
      by apply (Honce i (InStore c)).
    + intros j k p p' Hj Hk Hrj Hrk.
      apply lookup_insert_cases in Hj as [[<- ->]|[? Hj]];
        apply lookup_insert_cases in Hk as [[<- ->]|[? Hk]]; try done.
      * apply (Huniq i k (InStore c) p'); done.
      * apply (Huniq j i p (InStore c)); done.
      * eauto.
    + intros j e Hj.
      apply lookup_insert_cases in Hj as [[_ ?]|[_ Hj]]; [done|eauto].
Qed.

Lemma guard_inv_exec sched : forall s, guard_inv s -> guard_inv (exec q_ack q_nack sched s).
Proof.
  induction sched as [|[i o] sched IH]; intros s Hs; [done|].
  cbn. apply IH, guard_inv_step, Hs.
Qed.

(** One thread running alone does what the call does. *)
Lemma step_step_do_call c o o' m q :
  let s := step q_ack q_nack 0 o (step q_ack q_nack 0 o' (conc_init m q [c])) in
  exists b, (c_msg s, c_q s, c_threads s)
            = ((do_call q_ack q_nack c o m q).1.1, (do_call q_ack q_nack c o m q).1.2,
               [Done b (do_call q_ack q_nack c o m q).2]).
Proof.
  cbn. unfold step, conc_init. cbn.
  destruct (decide (once m = 0)) as [H0|Hn].
  - rewrite (do_call_fresh _ _ _ _ H0), H0, CAS_fresh. cbn.
    destruct (store_call q_ack q_nack c o (ID m) q) as [q' e]. cbn. by exists true.
  - rewrite (do_call_resolved _ _ _ _ Hn), (CAS_resolved _ Hn). cbn.
    rewrite set_once_same. by exists false.
Qed.

End OnceGuardFacts.

(** ** The order of keys *)

Lemma bytes_compare_refl a : bytes_compare a a = Eq.
Proof. induction a as [|x a IH]; cbn; [done|]. by rewrite Z.compare_refl. Qed.




Lemma bytes_lt_irrefl a : ~ bytes_lt a a.
Proof. unfold bytes_lt. by rewrite bytes_compare_refl. Qed.





(** *** The first entry of a bucket *)

Lemma min_entry_cons e l :
  min_entry (e :: l)
  = match min_entry l with
    | None => Some e
    | Some e' =>
        match bytes_compare e.1 e'.1 with
        | Lt => Some e
        | _ => Some e'
        end
    end.
Proof. reflexivity. Qed.

Lemma min_entry_nil l : min_entry l = None -> l = [].
Proof.
  destruct l as [|e l]; [done|]. rewrite min_entry_cons.
  destruct (min_entry l) as [e'|]; [|done].
  by destruct (bytes_compare e.1 e'.1).
Qed.


Lemma bucket_first_None (b : gmap bytes bytes) : bucket_first b = None -> b = ∅.
Proof. intros H. apply min_entry_nil in H. by apply map_to_list_empty_iff. Qed.


(** ** Marshalled identifiers *)

Lemma Uint64ID_MarshalBinary_eq v :
  Uint64ID_MarshalBinary v = (repeat 0 8 ++ be_bytes 8 v, None).
Proof. reflexivity. Qed.

Lemma uint64_mod v : is_uint64 v -> v mod 256 ^ Z.of_nat 8 = v.
Proof. intros Hv. apply Z.mod_small. exact Hv. Qed.

Lemma Uint64ID_MarshalBinary_compare a b :
  is_uint64 a -> is_uint64 b ->
  bytes_compare (Uint64ID_MarshalBinary a).1 (Uint64ID_MarshalBinary b).1
  = (a ?= b).
Proof.
  intros Ha Hb. rewrite !Uint64ID_MarshalBinary_eq. cbn [fst].
  rewrite bytes_compare_app_same, be_bytes_compare.
  by rewrite (uint64_mod a Ha), (uint64_mod b Hb).
Qed.

Lemma Uint64ID_MarshalBinary_mono a b :
  is_uint64 a -> is_uint64 b -> a < b ->
  bytes_lt (Uint64ID_MarshalBinary a).1 (Uint64ID_MarshalBinary b).1.
Proof.
  intros Ha Hb Hab. unfold bytes_lt.
  rewrite Uint64ID_MarshalBinary_compare by done. by apply Z.compare_lt_iff.
Qed.

(** * Properties *)

(** ** Identifiers *)

(** C10. For every [Uint64ID] value, [MarshalBinary] returns a nil error and
    sixteen bytes: eight zero bytes (the buffer is created holding them)
    followed by the eight bytes of the value in big-endian order, which read
    back as the value. *)
Theorem Uint64ID_MarshalBinary_sixteen_bytes (v : Z) :
  is_uint64 v ->
  (Uint64ID_MarshalBinary v).2 = None
  /\ length (Uint64ID_MarshalBinary v).1 = 16%nat
  /\ take 8 (Uint64ID_MarshalBinary v).1 = repeat 0 8
  /\ drop 8 (Uint64ID_MarshalBinary v).1 = PutUint64 v
  /\ Forall is_byte (Uint64ID_MarshalBinary v).1
  /\ be_decode (drop 8 (Uint64ID_MarshalBinary v).1) = v.
Proof.
  intros Hv. rewrite Uint64ID_MarshalBinary_eq. cbn [fst snd].
  split; [done|]. split.
  { by rewrite length_app, repeat_length, be_bytes_length. }
  split; [reflexivity|].
  assert (drop 8 (repeat 0 8 ++ be_bytes 8 v) = be_bytes 8 v) as Hdrop
    by reflexivity.
  rewrite Hdrop. split; [done|]. split.
  - apply Forall_app. split.
    + apply Forall_forall. intros x Hx%list_elem_of_In%repeat_spec. subst x.
      unfold is_byte. lia.
    + apply be_bytes_Forall.
  - rewrite be_decode_be_bytes. by apply uint64_mod.
Qed.

Lemma Uint64ID_MarshalBinary_sixteen_bytes_witness :
  (Uint64ID_MarshalBinary 258).2 = None
  /\ length (Uint64ID_MarshalBinary 258).1 = 16%nat
  /\ take 8 (Uint64ID_MarshalBinary 258).1 = repeat 0 8
  /\ drop 8 (Uint64ID_MarshalBinary 258).1 = PutUint64 258
  /\ Forall is_byte (Uint64ID_MarshalBinary 258).1
  /\ be_decode (drop 8 (Uint64ID_MarshalBinary 258).1) = 258.
Proof.
  apply (Uint64ID_MarshalBinary_sixteen_bytes 258). unfold is_uint64. lia.
Defined.

(** ** Options *)

(** C9. [WithMessageBufferSize] accepts every size that is not negative: it
    sets the buffer size and nothing else, and returns no error. For a
    negative size it returns the configuration error and leaves the queue,
    its store included, as it was. Size 0 is what a queue has before any
    option is applied. *)
Theorem WithMessageBufferSize_accepts_nonnegative (size : Z) (q : Q) :
  (0 <= size ->
     WithMessageBufferSize size q = (set_messagesBufSize size q, None)
     /\ messagesBufSize (WithMessageBufferSize size q).1 = size)
  /\ (size < 0 ->
     WithMessageBufferSize size q = (q, Some (ErrInvalidBufSize size)))
  /\ db (WithMessageBufferSize size q).1 = db q
  /\ (forall d nm,
        messagesBufSize (Q_zero d nm) = 0
        /\ WithMessageBufferSize 0 (Q_zero d nm) = (Q_zero d nm, None)).
Proof.
  unfold WithMessageBufferSize.
  destruct (Z.ltb_spec size 0) as [Hneg|Hpos]; repeat split; intros; try lia;
    reflexivity.
Qed.

Lemma WithMessageBufferSize_accepts_nonnegative_witness :
  WithMessageBufferSize 3 (ex_q 0) = (set_messagesBufSize 3 (ex_q 0), None)
  /\ WithMessageBufferSize (-1) (ex_q 0) = (ex_q 0, Some (ErrInvalidBufSize (-1))).
Proof.
  split.
  - apply (WithMessageBufferSize_accepts_nonnegative 3 (ex_q 0)). lia.
  - apply (WithMessageBufferSize_accepts_nonnegative (-1) (ex_q 0)). lia.
Defined.

(** ** The staging buffer *)

(** A buffer of two, run: what goes in first comes out first, a third Push
    on the full buffer panics, and so does a Pop on the empty one. *)
Example ex_fifo_pops_in_push_order :
  newFifo 2 = Ok ex_fifo0
  /\ fifo_run grow_exact
       [OpPush (Some ex_m1); OpPush (Some ex_m2); OpPop; OpPop] ex_fifo0
     = Ok (mkFifo (mkSlice [Some ex_m2; Some ex_m2] 0), [Some ex_m1; Some ex_m2]).
Proof. split; reflexivity. Qed.

Example ex_fifo_push_full_panics :
  fifo_run grow_exact
    [OpPush (Some ex_m1); OpPush (Some ex_m2); OpPush (Some ex_m1)] ex_fifo0
  = Panic "push to full buffer".
Proof. reflexivity. Qed.

Example ex_fifo_pop_empty_panics :
  fifo_run grow_exact [OpPush (Some ex_m1); OpPop; OpPop] ex_fifo0
  = Panic "index out of range".
Proof. reflexivity. Qed.

(** C6. A buffer made by [newFifo size] never holds more than [size]
    entries, whatever is pushed and popped; [Push] on a buffer that holds
    [size] entries panics; [Push] on one that holds fewer succeeds and the
    buffer then holds exactly one more. *)
Theorem fifo_never_exceeds_capacity (growslice : nat -> nat -> nat)
    (size : Z) (f0 f : fifo) (ops : list fifo_op) (out : list MessageRef) :
  newFifo size = Ok f0 ->
  fifo_run growslice ops f0 = Ok (f, out) ->
  Z.of_nat (fifo_Len f) <= size
  /\ (Z.of_nat (fifo_Len f) = size ->
      forall m, fifo_Push growslice f m = Panic "push to full buffer")
  /\ (Z.of_nat (fifo_Len f) < size ->
      forall m, exists f', fifo_Push growslice f m = Ok f'
                           /\ fifo_Len f' = S (fifo_Len f)).
Proof.
  intros Hnew Hrun.
  destruct (newFifo_inv size f0 Hnew) as (Hsize & _ & _ & Hcap0).
  pose proof (newFifo_wf size f0 Hnew) as Hwf0.
  destruct (fifo_run_inv growslice ops f0 f out Hwf0 Hrun) as (Hwf & Hcap & _).
  assert (cap (data f) = Z.to_nat size) as Hc by congruence.
  unfold fifo_wf in Hwf. unfold fifo_Len. repeat split.
  - lia.
  - intros Hfull m. apply fifo_Push_full. unfold fifo_Len. lia.
  - intros Hroom m.
    destruct (fifo_Push_ok growslice f m) as (f' & Hp & _ & Hl & _).
    + exact Hwf.
    + unfold fifo_Len. lia.
    + exists f'. split; [exact Hp|exact Hl].
Qed.

Lemma fifo_never_exceeds_capacity_witness :
  Z.of_nat (fifo_Len ex_fifo1) <= 2
  /\ (Z.of_nat (fifo_Len ex_fifo1) = 2 ->
      forall m, fifo_Push grow_exact ex_fifo1 m = Panic "push to full buffer")
  /\ (Z.of_nat (fifo_Len ex_fifo1) < 2 ->
      forall m, exists f', fifo_Push grow_exact ex_fifo1 m = Ok f'
                           /\ fifo_Len f' = S (fifo_Len ex_fifo1)).
Proof.
  apply (fifo_never_exceeds_capacity grow_exact 2 ex_fifo0 ex_fifo1 ex_ops
           [Some ex_m1]); reflexivity.
Defined.

(** C7. The buffer is first in, first out. After any run of pushes and pops
    on a buffer made by [newFifo], the values popped so far followed by the
    values still held are the values pushed, in the order they were pushed;
    a [Pop] on a buffer that is not empty returns the oldest value held and
    leaves the others in order; and messages pushed in increasing order of
    ID are popped in increasing order of ID. *)
Theorem fifo_first_in_first_out (growslice : nat -> nat -> nat)
    (size : Z) (f0 f : fifo) (ops : list fifo_op) (out : list MessageRef) :
  newFifo size = Ok f0 ->
  fifo_run growslice ops f0 = Ok (f, out) ->
  out ++ fifo_contents f = pushed ops
  /\ (0 < fifo_Len f ->
      exists x rest f', fifo_contents f = x :: rest
                        /\ fifo_Pop growslice f = Ok (x, f')
                        /\ fifo_contents f' = rest)%nat
  /\ (forall ms : list Message,
        pushed ops = Some <$> ms ->
        StronglySorted bytes_lt (ID <$> ms) ->
        exists ps, out = Some <$> ps /\ StronglySorted bytes_lt (ID <$> ps)).
Proof.
  intros Hnew Hrun.
  destruct (newFifo_inv size f0 Hnew) as (_ & Hc0 & _ & _).
  pose proof (newFifo_wf size f0 Hnew) as Hwf0.
  destruct (fifo_run_inv growslice ops f0 f out Hwf0 Hrun) as (Hwf & _ & Hcont).
  rewrite Hc0 in Hcont. cbn in Hcont. split; [done|]. split.
  - intros Hpos.
    destruct (fifo_Pop_ok growslice f Hwf Hpos) as (x & f' & Hpop & Hc & _).
    exists x, (fifo_contents f'), f'. done.
  - intros ms Hms Hsorted. rewrite Hms in Hcont.
    apply fmap_app_inv in Hcont as (ps & rest & -> & _ & ->).
    exists ps. split; [done|].
    rewrite fmap_app in Hsorted. by apply StronglySorted_app_1_l in Hsorted.
Qed.

Lemma fifo_first_in_first_out_witness :
  [Some ex_m1] ++ fifo_contents ex_fifo1 = pushed ex_ops
  /\ (0 < fifo_Len ex_fifo1 ->
      exists x rest f', fifo_contents ex_fifo1 = x :: rest
                        /\ fifo_Pop grow_exact ex_fifo1 = Ok (x, f')
                        /\ fifo_contents f' = rest)%nat
  /\ (forall ms : list Message,
        pushed ex_ops = Some <$> ms ->
        StronglySorted bytes_lt (ID <$> ms) ->
        exists ps, [Some ex_m1] = Some <$> ps /\ StronglySorted bytes_lt (ID <$> ps)).
Proof.
  apply (fifo_first_in_first_out grow_exact 2 ex_fifo0 ex_fifo1 ex_ops
           [Some ex_m1]); reflexivity.
Defined.

(** C8. [Pop] on an empty buffer panics, with an index out of range: it
    returns neither a value nor an error. On a buffer that holds something
    (callers check [Len] first) the index is in bounds and [Pop] returns the
    head. *)
Theorem fifo_Pop_empty_panics (growslice : nat -> nat -> nat)
    (size : Z) (f0 f : fifo) (ops : list fifo_op) (out : list MessageRef) :
  newFifo size = Ok f0 ->
  fifo_run growslice ops f0 = Ok (f, out) ->
  (fifo_Len f = 0%nat -> fifo_Pop growslice f = Panic "index out of range")
  /\ (0 < fifo_Len f ->
      exists x f', slice_index (data f) 0 = Ok x
                   /\ fifo_Pop growslice f = Ok (x, f'))%nat.
Proof.
  intros Hnew Hrun.
  pose proof (newFifo_wf size f0 Hnew) as Hwf0.
  destruct (fifo_run_inv growslice ops f0 f out Hwf0 Hrun) as (Hwf & _ & _).
  split.
  - apply fifo_Pop_empty.
  - intros Hpos.
    destruct (fifo_Pop_ok growslice f Hwf Hpos) as (x & f' & Hpop & _).
    exists x, f'. split; [|exact Hpop].
    unfold fifo_Pop in Hpop.
    destruct (slice_index (data f) 0) as [y|] eqn:Hy; [|discriminate].
    cbn in Hpop. destruct (slice_from (data f) 1); [|discriminate].
    cbn in Hpop. injection Hpop as -> _. reflexivity.
Qed.

Lemma fifo_Pop_empty_panics_witness :
  (fifo_Len ex_fifo0 = 0%nat -> fifo_Pop grow_exact ex_fifo0 = Panic "index out of range")
  /\ (0 < fifo_Len ex_fifo0 ->
      exists x f', slice_index (data ex_fifo0) 0 = Ok x
                   /\ fifo_Pop grow_exact ex_fifo0 = Ok (x, f'))%nat.
Proof.
  apply (fifo_Pop_empty_panics grow_exact 2 ex_fifo0 ex_fifo0 [] []); reflexivity.
Defined.

(** ** Ack and Nack *)

(** C2. Ack and Nack exclude each other and fire at most once, whatever
    [q.ack] and [q.nack] do. Called one after the other, in any order: every
    call after the first returns [ErrAckNack], and the queue and its store
    are left as the first call left them. Called at the same time, in any
    interleaving: at most one call gets to [q.ack] or [q.nack], and every
    call that returns without getting there returns [ErrAckNack]. *)
Theorem ack_nack_at_most_once {QS F : Type}
    (q_ack : F -> bytes -> QS -> QS * option error)
    (q_nack : F -> bytes -> bool -> QS -> QS * option error) :
  (forall (c : call) (o : F) (cs : list (call * F)) (m : Message) (q : QS),
     run_calls q_ack q_nack ((c, o) :: cs) m q
     = ((do_call q_ack q_nack c o m q).1.1,
        (do_call q_ack q_nack c o m q).1.2,
        (do_call q_ack q_nack c o m q).2
          :: repeat (Some ErrAckNack) (length cs)))
  /\ (forall (m : Message) (q : QS) (cs : list call) (sched : list (nat * F)),
        let s := exec q_ack q_nack sched (conc_init m q cs) in
        (forall i j p p',
            c_threads s !! i = Some p -> c_threads s !! j = Some p' ->
            reached_store p = true -> reached_store p' = true -> i = j)
        /\ (forall i e, c_threads s !! i = Some (Done false e) ->
                        e = Some ErrAckNack)).
Proof.
  split.
  - intros. apply run_calls_cons.
  - intros m q cs sched s.
    destruct (guard_inv_exec q_ack q_nack sched _ (guard_inv_init m q cs))
      as (_ & Huniq & Hret).
    split; [exact Huniq|exact Hret].
Qed.

(** Three calls on one delivered message, interleaved: the Nack swaps
    first and alone runs a transaction; both Acks return [ErrAckNack]. *)
Example ex_interleaved_calls :
  let s := exec Q_ack Q_nack
             [(1%nat, None); (0%nat, None); (2%nat, None); (1%nat, None)]
             (conc_init ex_msg_a (ex_received 0)
                [CallAck; CallNack true; CallAck]) in
  c_threads s = [Done false (Some ErrAckNack); Done true None;
                 Done false (Some ErrAckNack)]
  /\ once (c_msg s) = 1
  /\ txs (db (c_q s)) = S (txs (db (ex_received 0)))
  /\ ready (db (c_q s)) !! ex_key 1 = Some [97].
Proof. vm_compute. done. Qed.

(** The same calls one after the other. *)
Example ex_calls_in_sequence :
  (run_calls Q_ack Q_nack
     [(CallNack true, None); (CallAck, None); (CallNack false, None)]
     ex_msg_a (ex_received 0)).2
  = [None; Some ErrAckNack; Some ErrAckNack].
Proof. vm_compute. reflexivity. Qed.

(** C3. The flag is set before the transaction runs: in every state a run
    of calls can reach, a call that is about to enter [q.ack] or [q.nack]
    finds [once] already 1. So when the transaction of the first call on a
    fresh message fails with [e], that call returns [e], every later call
    returns [ErrAckNack], and no call on the message, in whatever state the
    queue then is, returns success again. *)
Theorem once_flag_set_before_transaction {QS F : Type}
    (q_ack : F -> bytes -> QS -> QS * option error)
    (q_nack : F -> bytes -> bool -> QS -> QS * option error) :
  (forall (m : Message) (q : QS) (cs : list call) (sched : list (nat * F)) i c,
     let s := exec q_ack q_nack sched (conc_init m q cs) in
     c_threads s !! i = Some (InStore c) -> once (c_msg s) = 1)
  /\ (forall (c : call) (o : F) (cs : list (call * F)) (m : Message) (q : QS) e,
        once m = 0 ->
        (store_call q_ack q_nack c o (ID m) q).2 = Some e ->
        exists m' q',
          run_calls q_ack q_nack ((c, o) :: cs) m q
          = (m', q', Some e :: repeat (Some ErrAckNack) (length cs))
          /\ once m' = 1
          /\ forall c' o' q'',
               do_call q_ack q_nack c' o' m' q'' = (m', q'', Some ErrAckNack)).
Proof.
  split.
  - intros m q cs sched i c s Hi.
    destruct (guard_inv_exec q_ack q_nack sched _ (guard_inv_init m q cs))
      as (Honce & _ & _).
    by apply (Honce i (InStore c)).
  - intros c o cs m q e Hm He.
    rewrite run_calls_cons, (do_call_fresh _ _ _ _ _ _ Hm), He. cbn.
    eexists _, _. split; [reflexivity|]. split; [reflexivity|].
    intros c' o' q''. by apply do_call_resolved.
Qed.

Lemma once_flag_set_before_transaction_witness :
  exists m' q',
    run_calls Q_ack Q_nack [(CallAck, Some (ErrStore 5)); (CallAck, None);
                            (CallNack true, None)] ex_m1 (ex_q 0)
    = (m', q', [Some (ErrStore 5); Some ErrAckNack; Some ErrAckNack])
    /\ once m' = 1
    /\ forall c' o' q'',
         do_call Q_ack Q_nack c' o' m' q'' = (m', q'', Some ErrAckNack).
Proof.
  apply (proj2 (once_flag_set_before_transaction Q_ack Q_nack)
           CallAck (Some (ErrStore 5)) [(CallAck, None); (CallNack true, None)]
           ex_m1 (ex_q 0) (ErrStore 5)); reflexivity.
Defined.

(** C1. The first [Ack] of a message does what [q.ack] does with the
    message's ID and returns its error: on an open queue, one transaction,
    which deletes the entry keyed by the ID from Unacked, or, when the store
    fails it, changes nothing and returns the store's error. Every later
    [Ack], after any calls of Ack and Nack on the message, returns
    [ErrAckNack] and leaves the queue and the store as they are. *)
Theorem Message_Ack_first_then_resolved (o : option error) (m : Message) (q : Q) :
  once m = 0 ->
  (let r := Message_Ack Q_ack o m q in
   (r.1.2, r.2) = Q_ack o (ID m) q
   /\ once r.1.1 = 1
   /\ (closed q = false ->
       txs (db r.1.2) = S (txs (db q))
       /\ ready (db r.1.2) = ready (db q)
       /\ returned (db r.1.2) = returned (db q)
       /\ match o with
          | None => r.2 = None
                    /\ unacked (db r.1.2) = delete (ID m) (unacked (db q))
          | Some e => r.2 = Some e /\ unacked (db r.1.2) = unacked (db q)
          end)
   /\ (forall (cs : list (call * option error)) (o' : option error),
         let s := run_calls Q_ack Q_nack cs r.1.1 r.1.2 in
         Message_Ack Q_ack o' s.1.1 s.1.2 = (s.1.1, s.1.2, Some ErrAckNack)
         /\ s.1.2 = r.1.2)).
Proof.
  intros Hm. cbn zeta.
  pose proof (do_call_fresh Q_ack Q_nack CallAck o m q Hm) as Hfirst.
  cbn [do_call store_call] in Hfirst. rewrite Hfirst. cbn [fst snd].
  split; [by destruct (Q_ack o (ID m) q)|]. split; [reflexivity|]. split.
  - intros Hopen. unfold Q_ack. rewrite Hopen. by destruct o.
  - intros cs o'.
    rewrite (run_calls_resolved Q_ack Q_nack cs (set_once 1 m)) by done.
    cbn [fst snd]. split; [|reflexivity].
    by apply (do_call_resolved Q_ack Q_nack CallAck).
Qed.

Lemma Message_Ack_first_then_resolved_witness :
  let r := Message_Ack Q_ack None ex_m1 (ex_q 0) in
  (r.1.2, r.2) = Q_ack None (ID ex_m1) (ex_q 0)
  /\ once r.1.1 = 1
  /\ (closed (ex_q 0) = false ->
      txs (db r.1.2) = S (txs (db (ex_q 0)))
      /\ ready (db r.1.2) = ready (db (ex_q 0))
      /\ returned (db r.1.2) = returned (db (ex_q 0))
      /\ r.2 = None
      /\ unacked (db r.1.2) = delete (ID ex_m1) (unacked (db (ex_q 0))))
  /\ (forall (cs : list (call * option error)) (o' : option error),
        let s := run_calls Q_ack Q_nack cs r.1.1 r.1.2 in
        Message_Ack Q_ack o' s.1.1 s.1.2 = (s.1.1, s.1.2, Some ErrAckNack)
        /\ s.1.2 = r.1.2).
Proof.
  apply (Message_Ack_first_then_resolved None ex_m1 (ex_q 0)). reflexivity.
Defined.

(** ** Identifiers of sent messages *)

Lemma StronglySorted_bytes_lt_NoDup (l : list bytes) :
  StronglySorted bytes_lt l -> NoDup l.
Proof.
  induction 1 as [|x l Hs IH Hall]; constructor; [|done].
  intros Hin. rewrite Forall_forall in Hall.
  by apply (bytes_lt_irrefl x), Hall.
Qed.

Lemma Q_Send_default oseq ocommit body q :
  seq q = None ->
  0 <= sequence (db q) -> sequence (db q) + 1 < 2 ^ 64 ->
  seq (Q_Send oseq ocommit body q).1.1 = None
  /\ (((Q_Send oseq ocommit body q).1.2 = None
       /\ sequence (db (Q_Send oseq ocommit body q).1.1) = sequence (db q))
      \/ ((Q_Send oseq ocommit body q).1.2
            = Some (mkMessage body
                      (Uint64ID_MarshalBinary (sequence (db q) + 1)).1 0)
          /\ sequence (db (Q_Send oseq ocommit body q).1.1) = sequence (db q) + 1)).
Proof.
  intros Hseq H0 H1. unfold Q_Send.
  destruct (closed q); [by split; [|left]|].
  unfold Q_nextSequence. rewrite Hseq.
  unfold Q_nextUint64ID, Bucket_NextSequence.
  destruct oseq as [e|]; [by split; [|left]|].
  cbn [db_begin sequence].
  rewrite (Z.mod_small (sequence (db q) + 1)) by lia.
  cbn [ID_MarshalBinary]. rewrite Uint64ID_MarshalBinary_eq.
  destruct ocommit as [e|]; [by split; [|left]|].
  split; [done|]. right. done.
Qed.

Lemma run_sends_default sends : forall q,
  seq q = None ->
  0 <= sequence (db q) ->
  sequence (db q) + Z.of_nat (length sends) < 2 ^ 64 ->
  StronglySorted bytes_lt (run_sends sends q).2
  /\ Forall (fun id => exists v, sequence (db q) < v < 2 ^ 64
                                 /\ id = (Uint64ID_MarshalBinary v).1)
       (run_sends sends q).2.
Proof.
  induction sends as [|[[oseq ocommit] body] sends IH]; intros q Hseq H0 Hn.
  { cbn. split; constructor. }
  cbn [length] in Hn. cbn [run_sends].
  destruct (Q_Send_default oseq ocommit body q Hseq H0 ltac:(lia)) as [Hseq1 Hcase].
  destruct (Q_Send oseq ocommit body q) as [[q1 m] err]. cbn [fst snd] in *.
  destruct Hcase as [[-> Hc]|[-> Hc]].
  - destruct (IH q1 Hseq1 ltac:(lia) ltac:(lia)) as [Hs Hall].
    destruct (run_sends sends q1) as [q2 ids]. cbn [fst snd] in *.
    split; [done|]. rewrite Hc in Hall. done.
  - destruct (IH q1 Hseq1 ltac:(lia) ltac:(lia)) as [Hs Hall].
    destruct (run_sends sends q1) as [q2 ids]. cbn [fst snd ID] in *.
    assert (Forall (fun id => exists v, sequence (db q) + 1 < v < 2 ^ 64
                                /\ id = (Uint64ID_MarshalBinary v).1) ids)
      as Hall' by (by rewrite <- Hc).
    split.
    + constructor; [done|].
      eapply Forall_impl; [exact Hall'|]. intros id (v & Hv & ->).
      apply Uint64ID_MarshalBinary_mono; unfold is_uint64; lia.
    + constructor.
      * exists (sequence (db q) + 1). split; [lia|done].
      * eapply Forall_impl; [exact Hall'|]. intros id (v & Hv & ->).
        exists v. split; [lia|done].
Qed.

Lemma Q_Send_custom oseq ocommit body q s :
  seq q = Some s ->
  exists s',
    seq (Q_Send oseq ocommit body q).1.1 = Some s'
    /\ seq_results s' = seq_results s
    /\ (seq_calls s <= seq_calls s')%nat
    /\ ((Q_Send oseq ocommit body q).1.2 = None
        \/ exists k, key_of (seq_results s (seq_calls s)) = Some k
                     /\ (Q_Send oseq ocommit body q).1.2
                        = Some (mkMessage body k 0)
                     /\ seq_calls s' = S (seq_calls s)).
Proof.
  intros Hseq. unfold Q_Send.
  destruct (closed q).
  { exists s. cbn. repeat split; [done|lia|by left]. }
  unfold Q_nextSequence, Sequencer_NextSequence, key_of. rewrite Hseq.
  exists (mkSequencer (seq_results s) (S (seq_calls s))).
  destruct (seq_results s (seq_calls s)) as [id [e|]]; cbn [fst snd].
  { cbn. repeat split; [lia|by left]. }
  destruct (ID_MarshalBinary id) as [key [e|]].
  { cbn. repeat split; [lia|by left]. }
  destruct ocommit as [e|].
  { cbn. repeat split; [lia|by left]. }
  cbn. repeat split; [lia|]. right. by exists key.
Qed.

Lemma run_sends_custom sends : forall q s,
  seq q = Some s ->
  Sequencer_increasing s ->
  StronglySorted bytes_lt (run_sends sends q).2
  /\ Forall (fun id => exists i, (seq_calls s <= i)%nat
                                 /\ key_of (seq_results s i) = Some id)
       (run_sends sends q).2.
Proof.
  induction sends as [|[[oseq ocommit] body] sends IH]; intros q s Hseq Hinc.
  { cbn. split; constructor. }
  cbn [run_sends].
  destruct (Q_Send_custom oseq ocommit body q s Hseq)
    as (s' & Hseq1 & Hres & Hcalls & Hcase).
  destruct (Q_Send oseq ocommit body q) as [[q1 m] err]. cbn [fst snd] in *.
  assert (Sequencer_increasing s') as Hinc'.
  { unfold Sequencer_increasing. rewrite Hres. exact Hinc. }
  destruct (IH q1 s' Hseq1 Hinc') as [Hs Hall].
  destruct (run_sends sends q1) as [q2 ids]. cbn [fst snd] in *.
  rewrite Hres in Hall.
  destruct Hcase as [->|(k & Hk & -> & Hc)].
  - split; [done|]. eapply Forall_impl; [exact Hall|].
    intros id (i & Hi & Hid). exists i. split; [lia|done].
  - cbn [ID]. split.
    + constructor; [done|]. eapply Forall_impl; [exact Hall|].
      intros id (i & Hi & Hid). apply (Hinc (seq_calls s) i); [lia|done|done].
    + constructor.
      * exists (seq_calls s). split; [lia|done].
      * eapply Forall_impl; [exact Hall|].
        intros id (i & Hi & Hid). exists i. split; [lia|done].
Qed.

(** C5 fails on a queue built with [WithSequencer] and a sequencer that does
    not keep the invariants: [nextSequence] hands out what the sequencer
    returns, unchecked, and two Sends return the same ID. *)
Lemma Send_IDs_custom_sequencer_repeat : ~ Send_IDs_always_increasing.
Proof.
  intros H.
  destruct (H (WithSequencer ex_const_sequencer (ex_q 0)).1
              [(None, None, [97]); (None, None, [98])]) as [_ Hnodup].
  vm_compute in Hnodup. apply NoDup_cons in Hnodup as [Hnotin _].
  apply Hnotin. left.
Qed.

(** C5, amended. On a queue whose sequencer keeps the invariants of the
    interface (the default one does while its 64-bit counter has not reached
    its end), the IDs returned by the successful calls of a sequence of Sends
    are strictly increasing in byte order, hence pairwise distinct; and for
    any two [Uint64ID] values [a < b], the bytes of [a] come before the bytes
    of [b]. *)
Theorem Send_IDs_increasing (q : Q)
    (sends : list (option error * option error * bytes)) :
  sequencer_ok q (length sends) ->
  StronglySorted bytes_lt (run_sends sends q).2
  /\ NoDup (run_sends sends q).2
  /\ (forall a b, is_uint64 a -> is_uint64 b -> a < b ->
        bytes_lt (Uint64ID_MarshalBinary a).1 (Uint64ID_MarshalBinary b).1).
Proof.
  intros Hok.
  assert (StronglySorted bytes_lt (run_sends sends q).2) as Hs.
  { unfold sequencer_ok in Hok. destruct (seq q) as [s|] eqn:Hseq.
    - by apply (run_sends_custom sends q s).
    - destruct Hok as [H0 Hn]. by apply run_sends_default. }
  split; [done|]. split.
  - by apply StronglySorted_bytes_lt_NoDup.
  - apply Uint64ID_MarshalBinary_mono.
Qed.

Lemma Send_IDs_increasing_witness :
  StronglySorted bytes_lt (run_sends ex_sends (ex_q 0)).2
  /\ NoDup (run_sends ex_sends (ex_q 0)).2
  /\ (forall a b, is_uint64 a -> is_uint64 b -> a < b ->
        bytes_lt (Uint64ID_MarshalBinary a).1 (Uint64ID_MarshalBinary b).1).
Proof.
  apply (Send_IDs_increasing (ex_q 0) ex_sends). cbn. lia.
Defined.

(** ** Nack with retry *)

Section NackRetryFacts.

Variable growslice : nat -> nat -> nat.

Variables id body : bytes.

Lemma fifo_Len_0_contents f : fifo_Len f = 0%nat -> fifo_contents f = [].
Proof. unfold fifo_Len, fifo_contents, elems. by intros ->. Qed.







End NackRetryFacts.



Example ex_buffered_first_receive :
  Q_Receive grow_exact None (ex_two_sent 2)
  = Ok (ex_received 2, Some ex_msg_a, None)
  /\ fifo_contents (messages (ex_received 2)) = [Some ex_msg_b]
  /\ unacked (db (ex_received 2)) !! ex_key 2 = Some [98].
Proof. vm_compute. done. Qed.


Example ex_unbuffered_receive_after_nack :
  run_receives grow_exact [None; None] (ex_nacked 0)
  = Ok ((match run_receives grow_exact [None; None] (ex_nacked 0) with
         | Ok (q, _) => q
         | Panic _ => ex_nacked 0
         end), [Some ex_msg_a; Some ex_msg_b]).
Proof. vm_compute. reflexivity. Qed.




(** * Further properties *)

(** ** Identifiers *)

(** X1. On [Uint64ID] values, comparing the marshalled bytes is comparing
    the numbers: the keys are ordered as the values are, and two values have
    the same key only if they are equal. *)
Theorem Uint64ID_MarshalBinary_order_embedding (a b : Z) :
  is_uint64 a -> is_uint64 b ->
  bytes_compare (Uint64ID_MarshalBinary a).1 (Uint64ID_MarshalBinary b).1
  = (a ?= b)
  /\ ((Uint64ID_MarshalBinary a).1 = (Uint64ID_MarshalBinary b).1 <-> a = b).
Proof.
  intros Ha Hb.
  pose proof (Uint64ID_MarshalBinary_compare a b Ha Hb) as Hc.
  split; [exact Hc|]. split.
  - intros Heq. rewrite Heq, bytes_compare_refl in Hc.
    symmetry in Hc. by apply Z.compare_eq_iff.
  - by intros ->.
Qed.

Lemma Uint64ID_MarshalBinary_order_embedding_witness :
  bytes_compare (Uint64ID_MarshalBinary 255).1 (Uint64ID_MarshalBinary 256).1
  = (255 ?= 256)
  /\ ((Uint64ID_MarshalBinary 255).1 = (Uint64ID_MarshalBinary 256).1
      <-> 255 = 256).
Proof.
  apply (Uint64ID_MarshalBinary_order_embedding 255 256);
    unfold is_uint64; lia.
Defined.

(** ** The staging buffer *)

Section FifoMore.

Local Open Scope nat_scope.

Lemma fifo_contents_length f :
  fifo_wf f -> length (fifo_contents f) = fifo_Len f.
Proof.
  unfold fifo_wf, fifo_contents, fifo_Len, elems, cap. intros Hwf.
  rewrite length_take. lia.
Qed.

Lemma fifo_run_bq growslice ops : forall f,
  fifo_wf f ->
  outcome_map (fun r => (fifo_contents r.1, r.2)) (fifo_run growslice ops f)
  = bq_run (cap (data f)) ops (fifo_contents f).
Proof.
  induction ops as [|[m|] ops IH]; intros f Hwf; cbn [fifo_run bq_run].
  - reflexivity.
  - rewrite (fifo_contents_length f Hwf).
    destruct (Nat.eqb_spec (fifo_Len f) (cap (data f))) as [Hfull|Hroom].
    + by rewrite (fifo_Push_full growslice f m Hfull).
    + assert (fifo_Len f < cap (data f))%nat as Hlt
        by (unfold fifo_wf, fifo_Len in *; lia).
      destruct (fifo_Push_ok growslice f m Hwf Hlt) as (f' & Hp & Hc & Hl & Hcap).
      rewrite Hp. cbn. rewrite <- Hc, <- Hcap. apply IH.
      unfold fifo_wf, fifo_Len in *. lia.
  - destruct (Nat.eq_dec (fifo_Len f) 0) as [Hzero|Hpos].
    + rewrite (fifo_Pop_empty growslice f Hzero).
      by rewrite (fifo_Len_0_contents f Hzero).
    + destruct (fifo_Pop_ok growslice f Hwf ltac:(lia)) as (x & f' & Hp & Hc & Hl & Hcap).
      rewrite Hp, Hc. cbn. rewrite <- Hcap, <- IH
        by (unfold fifo_wf, fifo_Len in *; lia).
      by destruct (fifo_run growslice ops f') as [[f'' out]|].
Qed.

(** X2. The buffer behaves as a bounded queue kept in a plain list: from a
    buffer made by [newFifo size], any run of pushes and pops returns the
    same values, holds the same contents and panics at the same operation
    with the same message as the list queue of bound [size]. *)
Theorem fifo_refines_bounded_queue (growslice : nat -> nat -> nat)
    (size : Z) (f0 : fifo) (ops : list fifo_op) :
  newFifo size = Ok f0 ->
  outcome_map (fun r => (fifo_contents r.1, r.2)) (fifo_run growslice ops f0)
  = bq_run (Z.to_nat size) ops [].
Proof.
  intros Hnew.
  destruct (newFifo_inv size f0 Hnew) as (_ & Hc & _ & Hcap).
  rewrite <- Hc, <- Hcap. apply fifo_run_bq. by apply (newFifo_wf size).
Qed.

Lemma fifo_refines_bounded_queue_witness :
  outcome_map (fun r => (fifo_contents r.1, r.2)) (fifo_run grow_exact ex_ops ex_fifo0)
  = bq_run (Z.to_nat 2%Z) ex_ops [].
Proof.
  apply (fifo_refines_bounded_queue grow_exact 2%Z ex_fifo0 ex_ops). reflexivity.
Defined.

Lemma go_append_within g1 g2 dst xs :
  (len dst + length xs <= cap dst)%nat ->
  go_append g1 dst xs = go_append g2 dst xs.
Proof.
  intros H. unfold go_append.
  by destruct (Nat.leb_spec (len dst + length xs) (cap dst)) as [_|?]; [|lia].
Qed.

Lemma fifo_Push_policy g1 g2 f m :
  fifo_wf f -> fifo_Push g1 f m = fifo_Push g2 f m.
Proof.
  unfold fifo_wf, fifo_Push. intros Hwf.
  destruct (Nat.eqb_spec (len (data f)) (cap (data f))) as [|Hne]; [done|].
  f_equal. f_equal. apply go_append_within. cbn. lia.
Qed.

Lemma fifo_Pop_policy g1 g2 f :
  fifo_wf f -> fifo_Pop g1 f = fifo_Pop g2 f.
Proof.
  unfold fifo_wf, fifo_Pop. intros Hwf.
  destruct (slice_index (data f) 0) as [x|]; [|done]. cbn.
  unfold slice_from. destruct (Nat.leb_spec 1 (len (data f))); [|done]. cbn.
  do 3 f_equal. apply go_append_within.
  unfold elems, slice_empty_prefix, cap in *. cbn.
  rewrite length_take, length_drop. lia.
Qed.

Lemma fifo_run_policy g1 g2 ops : forall f,
  fifo_wf f -> fifo_run g1 ops f = fifo_run g2 ops f.
Proof.
  induction ops as [|[m|] ops IH]; intros f Hwf; cbn [fifo_run]; [done| |].
  - rewrite (fifo_Push_policy g1 g2 f m Hwf).
    destruct (fifo_Push g2 f m) as [f'|] eqn:Hp; [|done]. cbn.
    apply IH. by destruct (fifo_Push_inv g2 f m f' Hwf Hp) as (_ & ? & _).
  - rewrite (fifo_Pop_policy g1 g2 f Hwf).
    destruct (fifo_Pop g2 f) as [[x f']|] eqn:Hp; [|done]. cbn.
    rewrite IH; [done|].
    by destruct (fifo_Pop_inv g2 f x f' Hwf Hp) as (_ & ? & _).
Qed.

(** X3. The buffer never reallocates: from a buffer made by
    [newFifo size], a run of pushes and pops comes out the same, backing
    array included, whatever the runtime would do to grow a slice, and the
    capacity is [size] at the end as at the start. *)
Theorem fifo_never_reallocates (g1 g2 : nat -> nat -> nat)
    (size : Z) (f0 : fifo) (ops : list fifo_op) :
  newFifo size = Ok f0 ->
  fifo_run g1 ops f0 = fifo_run g2 ops f0
  /\ (forall f out, fifo_run g1 ops f0 = Ok (f, out) ->
        cap (data f) = Z.to_nat size).
Proof.
  intros Hnew. pose proof (newFifo_wf size f0 Hnew) as Hwf.
  split; [by apply fifo_run_policy|].
  intros f out Hrun.
  destruct (fifo_run_inv g1 ops f0 f out Hwf Hrun) as (_ & Hcap & _).
  destruct (newFifo_inv size f0 Hnew) as (_ & _ & _ & Hcap0). congruence.
Qed.

Lemma fifo_never_reallocates_witness :
  fifo_run grow_exact ex_ops ex_fifo0
  = fifo_run (fun old _ => (2 * old + 1)%nat) ex_ops ex_fifo0
  /\ (forall f out, fifo_run grow_exact ex_ops ex_fifo0 = Ok (f, out) ->
        cap (data f) = Z.to_nat 2%Z).
Proof.
  apply (fifo_never_reallocates grow_exact (fun old _ => (2 * old + 1)%nat)
           2%Z ex_fifo0 ex_ops). reflexivity.
Defined.

(** X4. [Pop] does not clear the slot it frees: after a [Pop], the slot of
    the backing array just past the end of the slice still holds the
    reference that was last in the buffer (for a buffer of one, the message
    popped), until a later [Push] overwrites it. *)
Theorem fifo_Pop_keeps_last_reference (growslice : nat -> nat -> nat)
    (size : Z) (f0 f f' : fifo) (ops : list fifo_op)
    (out : list MessageRef) (x : MessageRef) :
  newFifo size = Ok f0 ->
  fifo_run growslice ops f0 = Ok (f, out) ->
  fifo_Pop growslice f = Ok (x, f') ->
  exists y, last (fifo_contents f) = Some y
            /\ arr (data f') !! fifo_Len f' = Some y.
Proof.
  intros Hnew Hrun Hpop.
  pose proof (newFifo_wf size f0 Hnew) as Hwf0.
  destruct (fifo_run_inv growslice ops f0 f out Hwf0 Hrun) as (Hwf & _ & _).
  destruct (fifo_Pop_inv growslice f x f' Hwf Hpop) as (Hpos & _ & _ & Hl & _).
  revert Hpop Hl. unfold fifo_wf, fifo_Len, fifo_contents, elems, cap in *.
  destruct f as [[a n]]. cbn in *. unfold fifo_Pop, slice_index, slice_from. cbn.
  destruct n as [|n]; [lia|]. cbn.
  destruct (a !! 0%nat) as [x0|]; [|discriminate]. cbn.
  intros [= <- <-]. cbn. intros _.
  unfold go_append, slice_empty_prefix, cap. cbn. rewrite Nat.sub_0_r.
  assert (length (take n (drop 1 a)) = n) as Hlen
    by (rewrite length_take, length_drop; lia).
  rewrite !Hlen.
  destruct (Nat.leb_spec n (length a)) as [_|?]; [|lia].
  cbn [arr len]. rewrite take_0. cbn [app].
  destruct (lookup_lt_is_Some_2 a n ltac:(lia)) as [y Hy].
  exists y. split.
  - rewrite last_lookup, length_take.
    replace (Init.Nat.pred (S n `min` length a)) with n by lia.
    rewrite lookup_take_lt by lia. exact Hy.
  - rewrite lookup_app_r by (rewrite Hlen; lia).
    rewrite Hlen, Nat.sub_diag, lookup_drop, Nat.add_0_r. exact Hy.
Qed.

Lemma fifo_Pop_keeps_last_reference_witness :
  exists y, last (fifo_contents ex_fifo1) = Some y
            /\ arr (data (mkFifo (mkSlice [Some ex_m2; None] 0)))
                 !! fifo_Len (mkFifo (mkSlice [Some ex_m2; None] 0)) = Some y.
Proof.
  apply (fifo_Pop_keeps_last_reference grow_exact 2%Z ex_fifo0 ex_fifo1
           (mkFifo (mkSlice [Some ex_m2; None] 0)) ex_ops [Some ex_m1]
           (Some ex_m2)); reflexivity.
Defined.

End FifoMore.

Section FifoRoundTrip.

Local Open Scope nat_scope.

Lemma bq_run_push_all size ops l : forall l0,
  length l0 + length l <= size ->
  bq_run size (map OpPush l ++ ops) l0 = bq_run size ops (l0 ++ l).
Proof.
  induction l as [|m l IH]; intros l0 Hlen; cbn [map app bq_run].
  - by rewrite app_nil_r.
  - cbn [length] in Hlen.
    destruct (Nat.eqb_spec (length l0) size) as [?|_]; [lia|].
    rewrite IH by (rewrite length_app; cbn; lia).
    by rewrite <- app_assoc.
Qed.

Lemma bq_run_pop_all size l :
  bq_run size (repeat OpPop (length l)) l = Ok ([], l).
Proof.
  induction l as [|x l IH]; cbn [length repeat bq_run]; [done|].
  by rewrite IH.
Qed.

(** X5. What is pushed comes back: from a fresh buffer made by
    [newFifo size], pushing the references of a list no longer than [size]
    and then popping as many succeeds, returns the list in its order, and
    leaves the buffer empty. *)
Theorem fifo_push_all_pop_all (growslice : nat -> nat -> nat)
    (size : Z) (f0 : fifo) (l : list MessageRef) :
  newFifo size = Ok f0 ->
  (Z.of_nat (length l) <= size)%Z ->
  exists f,
    fifo_run growslice (map OpPush l ++ repeat OpPop (length l)) f0 = Ok (f, l)
    /\ fifo_Len f = 0.
Proof.
  intros Hnew Hlen.
  pose proof (newFifo_wf size f0 Hnew) as Hwf0.
  destruct (newFifo_inv size f0 Hnew) as (_ & Hc & _ & Hcap).
  pose proof (fifo_run_bq growslice
                (map OpPush l ++ repeat OpPop (length l)) f0 Hwf0) as Href.
  rewrite Hc, Hcap, bq_run_push_all in Href by (cbn; lia).
  cbn [app] in Href. rewrite bq_run_pop_all in Href.
  destruct (fifo_run growslice (map OpPush l ++ repeat OpPop (length l)) f0)
    as [[f out]|] eqn:Hrun; [|discriminate].
  cbn in Href. injection Href as Hcont ->.
  exists f. split; [reflexivity|].
  destruct (fifo_run_inv growslice _ f0 f l Hwf0 Hrun) as (Hwf & _ & _).
  by rewrite <- (fifo_contents_length f Hwf), Hcont.
Qed.

Lemma fifo_push_all_pop_all_witness :
  exists f,
    fifo_run grow_exact
      (map OpPush [Some ex_m1; Some ex_m2]
       ++ repeat OpPop (length [Some ex_m1; Some ex_m2])) ex_fifo0
    = Ok (f, [Some ex_m1; Some ex_m2])
    /\ fifo_Len f = 0.
Proof.
  apply (fifo_push_all_pop_all grow_exact 2%Z ex_fifo0 [Some ex_m1; Some ex_m2]).
  - reflexivity.
  - cbn. lia.
Defined.

End FifoRoundTrip.

(** ** Ack and Nack running at the same time *)

Section OneWinner.

Context {QS F : Type}.

Variable q_ack : F -> bytes -> QS -> QS * option error.

Variable q_nack : F -> bytes -> bool -> QS -> QS * option error.

Variable m0 : Message.

Variable q0 : QS.

Variable cs : list call.

Lemma one_winner_init :
  once m0 = 0 -> one_winner q_ack q_nack m0 q0 cs (conc_init m0 q0 cs).
Proof.
  intros H0. split; [done|]. split; [apply length_fmap|]. by left.
Qed.

Lemma one_winner_step i o s :
  one_winner q_ack q_nack m0 q0 cs s ->
  one_winner q_ack q_nack m0 q0 cs (step q_ack q_nack i o s).
Proof.
  intros (Hid & Hlen & Hcase). unfold step.
  destruct (c_threads s !! i) as [[c'|c'|b e]|] eqn:Hi;
    [| |by repeat split|by repeat split].
  - (* the compare-and-swap *)
    destruct Hcase as [(H0 & Hth & Hq)|(w & c & Hw & H1 & Hothers & Hwin)].
    + rewrite H0, CAS_fresh. cbn [negb].
      split; [done|]. split; [by cbn; rewrite length_insert|]. right.
      assert (cs !! i = Some c') as Hc.
      { rewrite Hth in Hi. apply list_lookup_fmap_Some in Hi as (c & [= ->] & ?).
        done. }
      exists i, c'. split; [done|]. split; [done|]. split.
      * intros j cj p Hne Hcj Hp. cbn in Hp.
        rewrite list_lookup_insert_ne in Hp by done.
        rewrite Hth, list_lookup_fmap, Hcj in Hp. injection Hp as <-. by left.
      * left. cbn. split; [|done].
        apply list_lookup_insert_eq. by apply lookup_lt_Some in Hi.
    + rewrite CAS_resolved by lia. cbn [negb]. rewrite set_once_same.
      assert (i <> w) as Hne.
      { intros ->. destruct Hwin as [[Hw' _]|(o' & Hw' & _)]; congruence. }
      split; [done|]. split; [by cbn; rewrite length_insert|]. right.
      exists w, c. split; [done|]. split; [done|]. split.
      * intros j cj p Hj Hcj Hp. cbn in Hp.
        apply lookup_insert_cases in Hp as [[_ ->]|[_ Hp]]; [by right|].
        by apply (Hothers j).
      * cbn. rewrite list_lookup_insert_ne by done. exact Hwin.
  - (* the transaction *)
    destruct Hcase as [(H0 & Hth & Hq)|(w & c & Hw & H1 & Hothers & Hwin)].
    { rewrite Hth in Hi. by apply list_lookup_fmap_Some in Hi as (c & ? & ?). }
    assert (i = w) as ->.
    { destruct (decide (i = w)) as [|Hne]; [done|].
      destruct (lookup_lt_is_Some_2 cs i) as [ci Hci].
      { rewrite <- Hlen. by apply lookup_lt_Some in Hi. }
      by destruct (Hothers i ci _ Hne Hci Hi). }
    destruct Hwin as [[Hw' Hq]|(o' & Hw' & _)]; [|congruence].
    assert (c' = c) as -> by congruence.
    rewrite Hid, Hq.
    destruct (store_call q_ack q_nack c o (ID m0) q0) as [q' err] eqn:Hcall.
    split; [done|]. split; [by cbn; rewrite length_insert|]. right.
    exists w, c. split; [done|]. split; [done|]. split.
    + intros j cj p Hj Hcj Hp. cbn in Hp.
      rewrite list_lookup_insert_ne in Hp by done. by apply (Hothers j).
    + right. exists o. rewrite Hcall. cbn. split; [|done].
      apply list_lookup_insert_eq. by apply lookup_lt_Some in Hi.
Qed.

Lemma one_winner_exec sched : forall s,
  one_winner q_ack q_nack m0 q0 cs s ->
  one_winner q_ack q_nack m0 q0 cs (exec q_ack q_nack sched s).
Proof.
  induction sched as [|[i o] sched IH]; intros s Hs; [done|].
  cbn. by apply IH, one_winner_step.
Qed.

End OneWinner.

(** X6. Calls of Ack and Nack on a fresh message, running at the same time
    in any interleaving: once all have returned, exactly one of them has
    run its transaction; the queue is what [q.ack] or [q.nack], called once
    for that call on the queue as it was, has made of it; that call returned
    what the transaction returned and every other call [ErrAckNack]. *)
Theorem exactly_one_call_runs {QS F : Type}
    (q_ack : F -> bytes -> QS -> QS * option error)
    (q_nack : F -> bytes -> bool -> QS -> QS * option error)
    (m : Message) (q : QS) (cs : list call) (sched : list (nat * F)) :
  once m = 0 ->
  cs <> [] ->
  forallb is_returned (c_threads (exec q_ack q_nack sched (conc_init m q cs)))
  = true ->
  exists (i : nat) (c : call) (o : F),
    cs !! i = Some c
    /\ c_threads (exec q_ack q_nack sched (conc_init m q cs)) !! i
       = Some (Done true (store_call q_ack q_nack c o (ID m) q).2)
    /\ c_q (exec q_ack q_nack sched (conc_init m q cs))
       = (store_call q_ack q_nack c o (ID m) q).1
    /\ forall (j : nat) (cj : call), j <> i -> cs !! j = Some cj ->
         c_threads (exec q_ack q_nack sched (conc_init m q cs)) !! j
         = Some (Done false (Some ErrAckNack)).
Proof.
  intros Hm Hcs Hall.
  pose proof (one_winner_exec q_ack q_nack m q cs sched _
                (one_winner_init q_ack q_nack m q cs Hm)) as (_ & Hlen & Hcase).
  set (s := exec q_ack q_nack sched (conc_init m q cs)) in *.
  assert (forall j p, c_threads s !! j = Some p -> is_returned p = true) as Hret.
  { intros j p Hj. rewrite forallb_forall in Hall. apply Hall.
    apply list_elem_of_In. by apply list_elem_of_lookup_2 in Hj. }
  destruct Hcase as [(_ & Hth & _)|(i & c & Hi & _ & Hothers & Hwin)].
  - destruct cs as [|c0 cs']; [done|].
    specialize (Hret 0%nat (Start c0)). rewrite Hth in Hret.
    by specialize (Hret eq_refl).
  - destruct Hwin as [[Hw _]|(o & Hw & Hq)].
    { by specialize (Hret i _ Hw). }
    exists i, c, o. split; [done|]. split; [done|]. split; [done|].
    intros j cj Hne Hcj.
    destruct (lookup_lt_is_Some_2 (c_threads s) j) as [p Hp].
    { rewrite Hlen. by apply lookup_lt_Some in Hcj. }
    destruct (Hothers j cj p Hne Hcj Hp) as [->| ->]; [|done].
    by specialize (Hret j _ Hp).
Qed.

Lemma exactly_one_call_runs_witness :
  exists (i : nat) (c : call) (o : option error),
    [CallAck; CallNack true; CallAck] !! i = Some c
    /\ c_threads (exec Q_ack Q_nack
                    [(1%nat, None); (0%nat, None); (2%nat, None); (1%nat, None)]
                    (conc_init ex_msg_a (ex_received 0)
                       [CallAck; CallNack true; CallAck])) !! i
       = Some (Done true (store_call Q_ack Q_nack c o (ID ex_msg_a) (ex_received 0)).2)
    /\ c_q (exec Q_ack Q_nack
              [(1%nat, None); (0%nat, None); (2%nat, None); (1%nat, None)]
              (conc_init ex_msg_a (ex_received 0)
                 [CallAck; CallNack true; CallAck]))
       = (store_call Q_ack Q_nack c o (ID ex_msg_a) (ex_received 0)).1
    /\ forall (j : nat) (cj : call), j <> i ->
         [CallAck; CallNack true; CallAck] !! j = Some cj ->
         c_threads (exec Q_ack Q_nack
                      [(1%nat, None); (0%nat, None); (2%nat, None); (1%nat, None)]
                      (conc_init ex_msg_a (ex_received 0)
                         [CallAck; CallNack true; CallAck])) !! j
         = Some (Done false (Some ErrAckNack)).
Proof.
  apply (exactly_one_call_runs Q_ack Q_nack ex_msg_a (ex_received 0)
           [CallAck; CallNack true; CallAck]
           [(1%nat, None); (0%nat, None); (2%nat, None); (1%nat, None)]).
  - reflexivity.
  - discriminate.
  - vm_compute. reflexivity.
Defined.

Section MessageKept.

Context {QS F : Type}.

Variable q_ack : F -> bytes -> QS -> QS * option error.

Variable q_nack : F -> bytes -> bool -> QS -> QS * option error.

Lemma message_kept_trans m m1 m2 :
  message_kept m m1 -> message_kept m1 m2 -> message_kept m m2.
Proof.
  unfold message_kept. intros (Hb & Hi & Ho) (Hb' & Hi' & Ho').
  split; [congruence|]. split; [congruence|].
  destruct Ho as [Ho|[H0 H1]], Ho' as [Ho'|[H0' H1']]; try (left; congruence);
    try (right; split; congruence).
Qed.

Lemma message_kept_refl m : message_kept m m.
Proof. unfold message_kept. auto. Qed.

Lemma message_kept_CAS m :
  message_kept m (set_once (CompareAndSwapInt32 (once m) 0 1).1 m).
Proof.
  unfold message_kept, CompareAndSwapInt32.
  destruct (decide (once m = 0)); cbn; auto.
Qed.

Lemma do_call_message_kept c o m q :
  message_kept m (do_call q_ack q_nack c o m q).1.1.
Proof.
  destruct (decide (once m = 0)) as [H0|Hn].
  - rewrite (do_call_fresh q_ack q_nack c o m q H0). cbn.
    unfold message_kept. cbn. auto.
  - rewrite (do_call_resolved q_ack q_nack c o m q Hn). apply message_kept_refl.
Qed.

Lemma run_calls_message_kept cs : forall m q,
  message_kept m (run_calls q_ack q_nack cs m q).1.1.
Proof.
  induction cs as [|[c o] cs IH]; intros m q; cbn [run_calls].
  - apply message_kept_refl.
  - pose proof (do_call_message_kept c o m q) as H1.
    destruct (do_call q_ack q_nack c o m q) as [[m1 q1] e]. cbn in H1.
    pose proof (IH m1 q1) as H2.
    destruct (run_calls q_ack q_nack cs m1 q1) as [[m2 q2] es]. cbn in *.
    by apply (message_kept_trans m m1 m2).
Qed.

Lemma step_message_kept i o s :
  message_kept (c_msg s) (c_msg (step q_ack q_nack i o s)).
Proof.
  unfold step.
  destruct (c_threads s !! i) as [[c|c|b e]|]; try apply message_kept_refl.
  - pose proof (message_kept_CAS (c_msg s)) as H.
    destruct (CompareAndSwapInt32 (once (c_msg s)) 0 1) as [v swapped].
    by destruct swapped.
  - destruct (store_call q_ack q_nack c o (ID (c_msg s)) (c_q s)).
    apply message_kept_refl.
Qed.

Lemma exec_message_kept sched : forall s,
  message_kept (c_msg s) (c_msg (exec q_ack q_nack sched s)).
Proof.
  induction sched as [|[i o] sched IH]; intros s; cbn.
  - apply message_kept_refl.
  - eapply message_kept_trans; [apply (step_message_kept i o)|apply IH].
Qed.

End MessageKept.

(** X7. Ack and Nack never change the body or the ID of a message, and
    never take the flag back: after any calls, one after the other or
    interleaved, the message has the same [Body] and [ID], and [once] is
    what it was or has gone from 0 to 1. *)
Theorem ack_nack_keep_message {QS F : Type}
    (q_ack : F -> bytes -> QS -> QS * option error)
    (q_nack : F -> bytes -> bool -> QS -> QS * option error)
    (m : Message) (q : QS) :
  (forall cs : list (call * F),
     message_kept m (run_calls q_ack q_nack cs m q).1.1)
  /\ (forall (cs : list call) (sched : list (nat * F)),
        message_kept m (c_msg (exec q_ack q_nack sched (conc_init m q cs)))).
Proof.
  split.
  - intros cs. apply run_calls_message_kept.
  - intros cs sched. apply (exec_message_kept q_ack q_nack sched (conc_init m q cs)).
Qed.

(** ** Options *)

(** X8. The three options are independent: each sets its own field and
    leaves the store, the name, the buffer and the closed flag alone, so
    two accepted options give the same queue in either order; enabling dead
    letters twice is enabling them once; and of two accepted buffer sizes
    the later one stands. *)
Theorem options_independent (s : Sequencer) (size size' : Z) (q : Q) :
  0 <= size -> 0 <= size' ->
  (WithDeadLetters (WithSequencer s q).1).1
  = (WithSequencer s (WithDeadLetters q).1).1
  /\ (WithMessageBufferSize size (WithSequencer s q).1).1
     = (WithSequencer s (WithMessageBufferSize size q).1).1
  /\ (WithMessageBufferSize size (WithDeadLetters q).1).1
     = (WithDeadLetters (WithMessageBufferSize size q).1).1
  /\ WithDeadLetters (WithDeadLetters q).1 = WithDeadLetters q
  /\ WithMessageBufferSize size' (WithMessageBufferSize size q).1
     = WithMessageBufferSize size' q
  /\ (forall o : Option,
        o = WithSequencer s \/ o = WithDeadLetters
        \/ o = WithMessageBufferSize size ->
        (o q).2 = None
        /\ db (o q).1 = db q /\ name (o q).1 = name q
        /\ messages (o q).1 = messages q /\ closed (o q).1 = closed q).
Proof.
  intros Hs Hs'. unfold WithMessageBufferSize, WithDeadLetters, WithSequencer.
  destruct (Z.ltb_spec size 0) as [?|_]; [lia|].
  destruct (Z.ltb_spec size' 0) as [?|_]; [lia|].
  cbn. repeat split; try reflexivity.
  all: intros; destruct H as [->|[->| ->]]; cbn; try reflexivity.
  all: by destruct (Z.ltb_spec size 0) as [?|_]; [lia|].
Qed.

Lemma options_independent_witness :
  (WithDeadLetters (WithSequencer ex_const_sequencer (ex_q 0)).1).1
  = (WithSequencer ex_const_sequencer (WithDeadLetters (ex_q 0)).1).1
  /\ WithMessageBufferSize 5 (WithMessageBufferSize 3 (ex_q 0)).1
     = WithMessageBufferSize 5 (ex_q 0).
Proof.
  split.
  - apply (options_independent ex_const_sequencer 3 5 (ex_q 0)); lia.
  - apply (options_independent ex_const_sequencer 3 5 (ex_q 0)); lia.
Defined.

(** X9. The guard of [WithMessageBufferSize] is the one [newFifo] needs:
    every size the option rejects would make [newFifo] panic, and for every
    size [newFifo] returns for, the option accepts the size and the buffer
    is empty with that capacity; with capacity 0 it can hold nothing, every
    [Push] panics. *)
Theorem buffer_size_guard_matches_newFifo (growslice : nat -> nat -> nat)
    (size : Z) (q : Q) :
  ((WithMessageBufferSize size q).2 <> None ->
     newFifo size = Panic "makeslice: cap out of range")
  /\ (forall f, newFifo size = Ok f ->
        WithMessageBufferSize size q = (set_messagesBufSize size q, None)
        /\ fifo_Len f = 0%nat
        /\ Z.of_nat (cap (data f)) = size
        /\ (size = 0 ->
            forall m, fifo_Push growslice f m = Panic "push to full buffer")).
Proof.
  split.
  - unfold WithMessageBufferSize.
    destruct (Z.ltb_spec size 0) as [Hneg|_]; [|done].
    intros _. by apply newFifo_negative.
  - intros f Hnew.
    destruct (newFifo_inv size f Hnew) as (Hsize & _ & Hlen & Hcap).
    split; [|split; [done|split; [lia|]]].
    + unfold WithMessageBufferSize.
      by destruct (Z.ltb_spec size 0) as [?|_]; [lia|].
    + intros -> m. apply fifo_Push_full. rewrite Hlen, Hcap. reflexivity.
Qed.

Lemma buffer_size_guard_matches_newFifo_witness :
  newFifo (-3) = Panic "makeslice: cap out of range"
  /\ (WithMessageBufferSize 2 (ex_q 0) = (set_messagesBufSize 2 (ex_q 0), None)
      /\ fifo_Len ex_fifo0 = 0%nat
      /\ Z.of_nat (cap (data ex_fifo0)) = 2
      /\ (2 = 0 ->
          forall m, fifo_Push grow_exact ex_fifo0 m = Panic "push to full buffer")).
Proof.
  split.
  - apply (buffer_size_guard_matches_newFifo grow_exact (-3) (ex_q 0)).
    discriminate.
  - apply (buffer_size_guard_matches_newFifo grow_exact 2 (ex_q 0)).
    reflexivity.
Defined.

(** ** The sequencer file *)

Lemma Q_nextSequence_custom o q tx s :
  seq q = Some s ->
  Q_nextSequence o q tx
  = (set_seq (Some (mkSequencer (seq_results s) (S (seq_calls s)))) q, tx,
     (seq_results s (seq_calls s)).1, (seq_results s (seq_calls s)).2).
Proof. unfold Q_nextSequence. by intros ->. Qed.

Lemma Q_nextSequence_default o q tx :
  seq q = None ->
  Q_nextSequence o q tx
  = (q, (Q_nextUint64ID o tx).1.1, U64 (Q_nextUint64ID o tx).1.2,
     (Q_nextUint64ID o tx).2).
Proof.
  unfold Q_nextSequence. intros ->. by destruct (Q_nextUint64ID o tx) as [[? ?] ?].
Qed.

Lemma run_nextSequence_custom os : forall q tx s,
  seq q = Some s ->
  (run_nextSequence os q tx).1.2 = tx
  /\ db (run_nextSequence os q tx).1.1 = db q
  /\ seq (run_nextSequence os q tx).1.1
     = Some (mkSequencer (seq_results s) (seq_calls s + length os))
  /\ (run_nextSequence os q tx).2
     = map (fun k => seq_results s (seq_calls s + k)%nat)
         (List.seq 0 (length os)).
Proof.
  induction os as [|o os IH]; intros q tx s Hseq; cbn [run_nextSequence].
  - cbn. rewrite Hseq, Nat.add_0_r. by destruct s.
  - rewrite (Q_nextSequence_custom o q tx s Hseq).
    destruct (IH (set_seq (Some (mkSequencer (seq_results s) (S (seq_calls s)))) q)
                tx (mkSequencer (seq_results s) (S (seq_calls s))) eq_refl)
      as (Htx & Hdb & Hs & Hrs).
    destruct (run_nextSequence os _ tx) as [[q2 tx2] rs]. cbn [fst snd] in *.
    cbn [seq_results seq_calls] in *.
    split; [|split; [|split]].
    + exact Htx.
    + exact Hdb.
    + rewrite Hs. do 2 f_equal. cbn. lia.
    + cbn [length List.seq map]. rewrite Nat.add_0_r.
      f_equal; [by destruct (seq_results s (seq_calls s))|].
      rewrite Hrs, <- seq_shift, map_map.
      apply map_ext. intros k. f_equal. lia.
Qed.

(** X10. A sequencer installed with [WithSequencer] takes the place of the
    store's counter: the calls of [nextSequence] return what the sequencer
    returns, call after call, errors included, and the transaction, its
    counter with it, stays as it was. Without one, [nextSequence] leaves the
    queue alone and every ID it returns is a [Uint64ID]. *)
Theorem nextSequence_uses_installed_sequencer
    (s : Sequencer) (os : list (option error)) (q : Q) (tx : DB) :
  ((run_nextSequence os (WithSequencer s q).1 tx).1.2 = tx
   /\ (run_nextSequence os (WithSequencer s q).1 tx).2
      = map (fun k => seq_results s (seq_calls s + k)%nat)
          (List.seq 0 (length os)))
  /\ (seq q = None ->
      (run_nextSequence os q tx).1.1 = q
      /\ Forall (fun r => exists v, r.1 = U64 v) (run_nextSequence os q tx).2).
Proof.
  split.
  - destruct (run_nextSequence_custom os (WithSequencer s q).1 tx s eq_refl)
      as (Htx & _ & _ & Hrs). by split.
  - intros Hseq. revert tx.
    induction os as [|o os IH]; intros tx; cbn [run_nextSequence].
    + by split.
    + rewrite (Q_nextSequence_default o q tx Hseq).
      destruct (Q_nextUint64ID o tx) as [[tx1 v] err]. cbn [fst snd].
      destruct (IH tx1) as [Hq Hall].
      destruct (run_nextSequence os q tx1) as [[q2 tx2] rs]. cbn [fst snd] in *.
      split; [done|]. constructor; [by exists v|done].
Qed.

Lemma nextSequence_uses_installed_sequencer_witness :
  (run_nextSequence [None; None] (ex_q 0) ex_db).1.1 = ex_q 0
  /\ Forall (fun r => exists v, r.1 = U64 v)
       (run_nextSequence [None; None] (ex_q 0) ex_db).2.
Proof.
  apply (nextSequence_uses_installed_sequencer ex_const_sequencer
           [None; None] (ex_q 0) ex_db). reflexivity.
Defined.
